(** * DDPG agent: a shallow embedding of [ddpg_agent.py] and
      [ddpg_agent_updated.py]

    The two Python files are two variants of one design.  What they
    share (the numeric helpers, the [random] module, [OUNoise],
    [deque], [ReplayBuffer.sample], [soft_update], [hard_update]) is
    embedded once; what differs is embedded in the modules [Original]
    ([ddpg_agent.py]) and [Updated] ([ddpg_agent_updated.py]).

    Floating-point numbers are read as exact rationals ([Qc], rationals
    in lowest terms, so that Leibniz equality is numeric equality),
    except where an infinity or a NaN changes what the code computes:
    the values of the critic and the TD target built from them are
    float32 values ([float]).  Tensors and arrays are one-dimensional
    vectors ([list Qc], [list float]); a two-dimensional array is the
    list of its rows. *)

From Stdlib Require Import ZArith QArith Qcanon List Lia.
From stdpp Require Import base numbers option list.

Open Scope Qc_scope.

(** ** Python exceptions and fallible results *)

(** How a call ends without a result: with one of the exceptions the
    code can raise, or never ([Hangs]: the rejection loop of
    [random.sample] on a generator that keeps answering selected
    positions).  Neither file catches an exception, so either ends the
    calls around it as well. *)
Inductive exn : Type :=
| ValueError
| IndexError
| ZeroDivisionError
| RuntimeError
| Hangs.

Inductive result (A : Type) : Type :=
| Ok (a : A)
| Raise (e : exn).
Arguments Ok {A} a.
Arguments Raise {A} e.

#[export] Instance result_ret : MRet result := fun A a => Ok a.
#[export] Instance result_bind : MBind result := fun A B f m =>
  match m with
  | Ok a => f a
  | Raise e => Raise e
  end.
#[export] Instance result_fmap : FMap result := fun A B f m =>
  match m with
  | Ok a => Ok (f a)
  | Raise e => Raise e
  end.

(** [for x in xs: body] threading a state [s] and stopping at the first
    exception. *)
Fixpoint for_each {X S : Type} (xs : list X) (body : X → S → result S) (s : S)
  : result S :=
  match xs with
  | [] => Ok s
  | x :: xs' => s' ← body x s; for_each xs' body s'
  end.

(** [range(n)] for a Python integer [n]: empty when [n <= 0]. *)
Definition range (n : Z) : list nat := seq 0 (Z.to_nat n).

(** [xs[i]] on a Python list or the first axis of an array. *)
Definition getitem {A} (xs : list A) (i : nat) : result A :=
  match xs !! i with
  | Some x => Ok x
  | None => Raise IndexError
  end.

(** ** numpy / torch vectors *)

Abbreviation Tensor := (list Qc).

(** Elementwise binary operation with the one-dimensional broadcasting
    rule: equal lengths, or one operand of length one. *)
Definition broadcast2 (e : exn) (f : Qc → Qc → Qc) (u v : Tensor)
  : result Tensor :=
  if decide (length u = length v) then Ok (zip_with f u v)
  else if decide (length u = 1%nat) then Ok (fmap (f (hd 0 u)) v)
  else if decide (length v = 1%nat) then Ok (fmap (λ a, f a (hd 0 v)) u)
  else Raise e.

(** In-place operation [dst op= src] (also [dst.copy_(src)]): [src] is
    broadcast to the shape of [dst], which never changes. *)
Definition inplace (e : exn) (f : Qc → Qc → Qc) (dst src : Tensor)
  : result Tensor :=
  if decide (length src = length dst) then Ok (zip_with f dst src)
  else if decide (length src = 1%nat) then Ok (fmap (λ a, f a (hd 0 src)) dst)
  else Raise e.

(** numpy raises [ValueError] on a shape mismatch, torch [RuntimeError]. *)
Definition np_op := broadcast2 ValueError.
Definition np_iop := inplace ValueError.
Definition torch_op := broadcast2 RuntimeError.
Definition torch_copy_ := inplace RuntimeError (λ _ src, src).

Definition scale (c : Qc) (v : Tensor) : Tensor := fmap (Qcmult c) v.
Definition rsub (c : Qc) (v : Tensor) : Tensor := fmap (Qcminus c) v.

(** Python's [max(a, b)] *)
Definition py_max (a b : Qc) : Qc := if decide (a < b) then b else a.

(** ** float32 values

    What a critic returns, and the TD target computed from it, are
    float32 values: a number, an infinity or a NaN.  A finite result is
    read as the exact rational (its rounding is left out); a result
    whose magnitude reaches [2^128 - 2^103] overflows to an infinity,
    as rounding to nearest does. *)

Inductive float : Type :=
| Fin (q : Qc)
| Inf (negative : bool)
| NaN.

Definition FLT_OVERFLOW : Qc := Q2Qc (inject_Z (2 ^ 128 - 2 ^ 103)).

(** The float32 value of an exact result. *)
Definition fl (q : Qc) : float :=
  if decide (FLT_OVERFLOW ≤ q) then Inf false
  else if decide (q ≤ - FLT_OVERFLOW) then Inf true
  else Fin q.

Definition negative (q : Qc) : bool := bool_decide (q < 0).

(** IEEE 754 multiplication: zero times an infinity is a NaN. *)
Definition fmul (a b : float) : float :=
  match a, b with
  | NaN, _ | _, NaN => NaN
  | Inf s, Inf t => Inf (xorb s t)
  | Inf s, Fin q | Fin q, Inf s =>
      if decide (q = 0) then NaN else Inf (xorb s (negative q))
  | Fin p, Fin q => fl (p * q)
  end.

(** IEEE 754 addition: opposite infinities add up to a NaN. *)
Definition fadd (a b : float) : float :=
  match a, b with
  | NaN, _ | _, NaN => NaN
  | Inf s, Inf t => if decide (s = t) then Inf s else NaN
  | Inf s, Fin _ | Fin _, Inf s => Inf s
  | Fin p, Fin q => fl (p + q)
  end.

Definition fneg (a : float) : float :=
  match a with
  | Fin q => Fin (- q)
  | Inf s => Inf (negb s)
  | NaN => NaN
  end.

Definition fsub (a b : float) : float := fadd a (fneg b).

(** A number, as opposed to an infinity or a NaN. *)
Definition finite (a : float) : Prop :=
  match a with
  | Fin _ => True
  | _ => False
  end.

(** A rational within the float32 range, and a float32 value: its
    number, if any, is within the range. *)
Definition in_range (q : Qc) : Prop :=
  ¬ FLT_OVERFLOW ≤ q ∧ ¬ q ≤ - FLT_OVERFLOW.

Definition float32 (a : float) : Prop :=
  match a with
  | Fin q => in_range q
  | _ => True
  end.

(** An elementwise torch operation on two float32 vectors, with the
    broadcasting rule of [broadcast2]. *)
Definition ftorch_op (f : float → float → float) (u v : list float)
  : result (list float) :=
  if decide (length u = length v) then Ok (zip_with f u v)
  else if decide (length u = 1%nat) then Ok (fmap (f (hd NaN u)) v)
  else if decide (length v = 1%nat) then Ok (fmap (λ a, f a (hd NaN v)) u)
  else Raise RuntimeError.

(** [np.clip(a, lo, hi)] on one coordinate: [minimum(maximum(a, lo), hi)]. *)
Definition clip1 (lo hi a : Qc) : Qc :=
  let m := if decide (a < lo) then lo else a in
  if decide (hi < m) then hi else m.

Definition np_clip (a : list Tensor) (lo hi : Qc) : list Tensor :=
  (λ row : Tensor, clip1 lo hi <$> row) <$> a.

(** [np.vstack(rows)]: at least one row, all of one length. *)
Definition vstack (rows : list Tensor) : result (list Tensor) :=
  match rows with
  | [] => Raise ValueError
  | r :: _ =>
      if decide (Forall (λ r', length r' = length r) rows) then Ok rows
      else Raise ValueError
  end.

(** [np.vstack] of scalars: a column, one entry per scalar. *)
Definition vstack_scalars (xs : list Qc) : result Tensor :=
  match xs with
  | [] => Raise ValueError
  | _ => Ok xs
  end.

(** ** The [random] module

    The generator state is the sequence of raw outputs still to come
    (an exhausted sequence goes on with zeros).  [random.random()]
    keeps 53 bits of a raw output; [_randbelow(n)] reduces one below
    [n].  Quantifying over the sequence covers every run. *)

Abbreviation Rng := (list N).

Definition getrand (r : Rng) : N * Rng :=
  match r with
  | [] => (0%N, [])
  | x :: r' => (x, r')
  end.

Definition random_random (r : Rng) : Qc * Rng :=
  let '(x, r') := getrand r in
  (Q2Qc (Z.of_N (x mod 2 ^ 53) # 2 ^ 53), r').

Definition randbelow (n : nat) (r : Rng) : nat * Rng :=
  let '(x, r') := getrand r in
  (N.to_nat (x mod N.of_nat n), r').

(** [[random.random() for i in range(n)]] *)
Fixpoint random_vector (n : nat) (r : Rng) : Tensor * Rng :=
  match n with
  | O => ([], r)
  | S n' =>
      let '(x, r1) := random_random r in
      let '(xs, r2) := random_vector n' r1 in
      (x :: xs, r2)
  end.

(** The selection loop of [random.sample] for a small population:
    [pool = list(population);
     for i in range(k): j = randbelow(n-i); result[i] = pool[j];
       pool[j] = pool[n-i-1]] *)
Fixpoint sample_pool {A} (n : nat) (idxs : list nat) (pool : list A) (r : Rng)
  : list A * Rng :=
  match idxs with
  | [] => ([], r)
  | i :: idxs' =>
      let '(j, r1) := randbelow (n - i) r in
      match pool !! j, pool !! (n - i - 1)%nat with
      | Some x, Some y =>
          let '(res, r2) := sample_pool n idxs' (<[j := y]> pool) r1 in
          (x :: res, r2)
      | _, _ => ([], r1)
      end
  end.

(** [4 ** _ceil(_log(x, 4))] needs the least [m] with [x <= 4 ** m].
    The library computes it with floating-point logarithms, which give
    this integer for every [x = k * 3] with [k] below [10 ** 14]; the
    first [k] at which they give [m - 1] instead is [(4 ** 25 + 2) / 3]. *)
Definition ceil_log4 (x : Z) : Z := (Z.log2_up x + 1) / 2.

(** [setsize = 21; if k > 5: setsize += 4 ** _ceil(_log(k * 3, 4))] *)
Definition setsize (k : Z) : Z :=
  if decide (k > 5)%Z then (21 + 4 ^ ceil_log4 (k * 3))%Z else 21%Z.

(** [j = randbelow(n); while j in selected: j = randbelow(n)].  Every
    turn takes one raw output, so the loop either ends within the
    sequence or meets its end, after which every draw is the same: the
    fuel [S (length r)] is exact, and [None] stands for a loop that
    does not end. *)
Fixpoint draw_unselected (fuel n : nat) (selected : list nat) (r : Rng)
  : option (nat * Rng) :=
  match fuel with
  | O => None
  | S fuel' =>
      let '(j, r') := randbelow n r in
      if decide (j ∈ selected) then draw_unselected fuel' n selected r'
      else Some (j, r')
  end.

(** The selection loop of [random.sample] for a large population:
    [for i in range(k): j = randbelow(n);
       while j in selected: j = randbelow(n)
       selected_add(j); result[i] = population[j]] *)
Fixpoint sample_set {A} (n k : nat) (population : list A)
    (selected : list nat) (r : Rng) : result (list A * Rng) :=
  match k with
  | O => Ok ([], r)
  | S k' =>
      match draw_unselected (S (length r)) n selected r with
      | None => Raise Hangs
      | Some (j, r1) =>
          x ← getitem population j;
          '(res, r2) ← sample_set n k' population (j :: selected) r1;
          Ok (x :: res, r2)
      end
  end.

(** [random.sample(population, k)]: a [ValueError] unless
    [0 <= k <= n]; then the pool loop when [n <= setsize], the loop
    over a set of selected positions otherwise. *)
Definition random_sample {A} (population : list A) (k : Z) (r : Rng)
  : result (list A * Rng) :=
  let n := length population in
  if decide (0 ≤ k ≤ Z.of_nat n)%Z then
    if decide (Z.of_nat n ≤ setsize k)%Z
    then Ok (sample_pool n (range k) population r)
    else sample_set n (Z.to_nat k) population [] r
  else Raise ValueError.

(** ** [collections.deque(maxlen=...)] *)

Record deque (A : Type) : Type := mk_deque {
  items : list A;
  maxlen : Z;
}.
Arguments mk_deque {A} items maxlen.
Arguments items {A} d.
Arguments maxlen {A} d.

Definition deque_new {A} (maxlen : Z) : result (deque A) :=
  if decide (maxlen < 0)%Z then Raise ValueError
  else Ok (mk_deque [] maxlen).

(** [d.append(x)]: append on the right, then drop the leftmost item
    when the length exceeds [maxlen]. *)
Definition deque_append {A} (d : deque A) (x : A) : deque A :=
  let l := items d ++ [x] in
  mk_deque (if decide (maxlen d < Z.of_nat (length l))%Z then drop 1 l else l)
           (maxlen d).

Definition deque_len {A} (d : deque A) : Z := Z.of_nat (length (items d)).

(** ** Transitions *)

Record Experience : Type := experience {
  state : Tensor;
  action : Tensor;
  reward : Qc;
  next_state : Tensor;
  done : bool;
}.

(** The five tensors [ReplayBuffer.sample] returns:
    [(states, actions, rewards, next_states, dones)]. *)
Definition Batch : Type :=
  (list Tensor * list Tensor * Tensor * list Tensor * Tensor)%type.

(** [np.uint8] of a flag, as a float. *)
Definition uint8 (b : bool) : Qc := if b then 1 else 0.

(** ** [class OUNoise] *)

Module OUNoise.

Record t : Type := mk {
  mu : Tensor;
  theta : Qc;
  sigma : Qc;
  state : Tensor;
}.

(** [self.state = copy.copy(self.mu)] *)
Definition reset (self : t) : t :=
  mk (mu self) (theta self) (sigma self) (mu self).

(** [__init__]: [self.mu = mu * np.ones(size)], then [self.reset()].
    (The seeding of [random] is done by the caller's model of
    [random.seed]; the updated file also stores [num_agents], which no
    method reads.) *)
Definition init (size : nat) (mu theta sigma : Qc) : t :=
  reset (mk (scale mu (replicate size 1)) theta sigma []).

(** [sample]: [dx = theta * (mu - x) + sigma * array([random.random()
    for i in range(len(x))])], [self.state = x + dx], returned. *)
Definition sample (self : t) (r : Rng) : result (Tensor * t * Rng) :=
  let x := state self in
  d ← np_op Qcminus (mu self) x;
  let '(xi, r') := random_vector (length x) r in
  dx ← np_op Qcplus (scale (theta self) d) (scale (sigma self) xi);
  s ← np_op Qcplus x dx;
  Ok (s, mk (mu self) (theta self) (sigma self) s, r').

End OUNoise.

(** ** [class ReplayBuffer]: what the two files share *)

Module ReplayBuffer.

Record t : Type := mk {
  action_size : nat;
  memory : deque Experience;
  batch_size : Z;
  num_agents : Z;
}.

(** [__init__]: [self.memory = deque(maxlen=buffer_size)] *)
Definition init (action_size : nat) (buffer_size batch_size num_agents : Z)
  : result t :=
  memory ← deque_new buffer_size;
  Ok (mk action_size memory batch_size num_agents).

(** [self.memory.append(e)] *)
Definition append (self : t) (e : Experience) : t :=
  mk (action_size self) (deque_append (memory self) e)
     (batch_size self) (num_agents self).

(** [sample]: [random.sample(self.memory, k=self.batch_size)], then the
    five [np.vstack]s (no experience is [None], the filters keep all). *)
Definition sample (self : t) (r : Rng) : result (Batch * Rng) :=
  '(experiences, r') ← random_sample (items (memory self)) (batch_size self) r;
  states ← vstack (fmap state experiences);
  actions ← vstack (fmap action experiences);
  rewards ← vstack_scalars (fmap reward experiences);
  next_states ← vstack (fmap next_state experiences);
  dones ← vstack_scalars (fmap (λ e, uint8 (done e)) experiences);
  Ok ((states, actions, rewards, next_states, dones), r').

(** [__len__] *)
Definition len (self : t) : Z := deque_len (memory self).

End ReplayBuffer.

(** ** Module constants *)

Definition BUFFER_SIZE : Z := 100000.
Definition GAMMA : Qc := Q2Qc (99 # 100).
Definition TAU : Qc := Q2Qc (1 # 1000).
Definition LR_ACTOR : Qc := Q2Qc (1 # 10000).
Definition LR_CRITIC : Qc := Q2Qc (1 # 1000).
Definition WEIGHT_DECAY : Qc := 0.
Definition LEARNING_RATE : Z := 10.
Definition TIME_UPDATE : Z := 10.

(** ** Parameters of the networks

    A [torch.nn.Parameter] is an object with a value ([data]) and a
    gradient ([grad]); the store maps an object identity to the object.
    A network ([nn.Module]) is known by its [parameters()], the
    identities in order; an optimizer holds the identities it was given. *)

Record Param : Type := mk_param {
  data : Tensor;
  grad : option Tensor;
}.

Abbreviation Heap := (list Param).
Abbreviation Net := (list nat).

Definition getparam (h : Heap) (p : nat) : result Param :=
  match h !! p with
  | Some c => Ok c
  | None => Raise RuntimeError
  end.

(** The values of a network's parameters, in order. *)
Definition values (h : Heap) (net : Net) : list Tensor :=
  omap (λ p, data <$> h !! p) net.

(** Allocation of the parameters of a freshly built network. *)
Definition alloc (ws : list Tensor) (h : Heap) : Net * Heap :=
  (seq (length h) (length ws), h ++ fmap (λ w, mk_param w None) ws).

(** ** The external collaborators

    [model.py] (the two network classes), torch's autograd and
    [optim.Adam], and the stream [random.seed] selects, are not part of
    the files: they are taken as an interface. *)

(** [module.train()] / [module.eval()] *)
Inductive mode : Type := train | eval.

Class External : Type := {
  (** the raw stream of [random] after [random.seed(seed)] *)
  seed_stream : Z → Rng;
  (** torch's own generator, which the constructors draw weights from *)
  torch_gen : Type;
  (** [Actor(state_size, action_size, seed)]: initial parameter values *)
  Actor_new : nat → nat → Z → torch_gen → list Tensor * torch_gen;
  (** [Critic(state_size, action_size, seed)] *)
  Critic_new : nat → nat → Z → torch_gen → list Tensor * torch_gen;
  (** [actor(states)] on a batch of states (one action row per state),
      for the network's mode and parameter values *)
  Actor_forward : mode → list Tensor → list Tensor → list Tensor;
  (** [actor(state)] on a single state vector *)
  Actor_forward1 : mode → list Tensor → Tensor → Tensor;
  (** [critic(states, actions)], one value per row *)
  Critic_forward :
    mode → list Tensor → list Tensor → list Tensor → list float;
  (** gradients [critic_loss.backward()] adds: to the parameters of
      critic_local, critic_target and actor_target (the target value is
      not detached), given their values, the batch, the TD targets *)
  critic_loss_backward :
    list Tensor → list Tensor → list Tensor → Batch → list float →
    list Tensor * list Tensor * list Tensor;
  (** gradients [actor_loss.backward()] adds: to the parameters of
      actor_local and of critic_local *)
  actor_loss_backward :
    list Tensor → list Tensor → list Tensor → list Tensor * list Tensor;
  (** [optim.Adam]: per-parameter state and the update of one parameter
      from its value and gradient, for a learning rate and weight decay *)
  adam_state : Type;
  adam_new : adam_state;
  adam_update : Qc → Qc → adam_state → Tensor → Tensor → Tensor * adam_state;
  (** two networks built with the same arguments have the same shapes *)
  Actor_new_shape : ∀ s a seed g g',
    fmap length (Actor_new s a seed g).1 = fmap length (Actor_new s a seed g').1;
  Critic_new_shape : ∀ s a seed g g',
    fmap length (Critic_new s a seed g).1 = fmap length (Critic_new s a seed g').1;
  (** a critic returns one value per input row *)
  Critic_forward_length : ∀ m ps s a,
    length (Critic_forward m ps s a) = length s;
}.

Section Networks.
Context `{External}.

(** The interpreter state outside the agent object: the parameter
    store, the [random] generator, torch's generator. *)
Record World : Type := mk_world {
  heap : Heap;
  rng : Rng;
  gen : torch_gen;
}.

Definition set_heap (w : World) (h : Heap) : World :=
  mk_world h (rng w) (gen w).
Definition set_rng (w : World) (r : Rng) : World :=
  mk_world (heap w) r (gen w).

(** [optim.Adam(params, lr=..., weight_decay=...)] *)
Record Optimizer : Type := mk_opt {
  opt_params : Net;
  opt_lr : Qc;
  opt_weight_decay : Qc;
  opt_state : list adam_state;
}.

Definition Adam (params : Net) (lr weight_decay : Qc) : Optimizer :=
  mk_opt params lr weight_decay (replicate (length params) adam_new).

(** [optimizer.zero_grad()]: the gradients of its parameters are
    cleared. *)
Definition zero_grad (opt : Optimizer) (h : Heap) : Heap :=
  foldl (λ h p, alter (λ c, mk_param (data c) None) p h) h (opt_params opt).

(** [loss.backward()]: each gradient is added to its parameter's
    [grad]. *)
Definition accumulate (net : Net) (grads : list Tensor) (h : Heap) : Heap :=
  foldl (λ h '(p, g),
           alter (λ c, mk_param (data c)
                         (Some (match grad c with
                                | Some g0 => zip_with Qcplus g0 g
                                | None => g
                                end))) p h)
        h (zip net grads).

(** [optimizer.step()]: every parameter of the optimizer that has a
    gradient gets its new value; nothing else is written. *)
Fixpoint adam_steps (lr wd : Qc) (ps : Net) (sts : list adam_state) (h : Heap)
  : list adam_state * Heap :=
  match ps, sts with
  | p :: ps', st :: sts' =>
      match h !! p with
      | Some (mk_param d (Some g)) =>
          let '(d', st') := adam_update lr wd st d g in
          let '(sts'', h') :=
            adam_steps lr wd ps' sts' (<[p := mk_param d' (Some g)]> h) in
          (st' :: sts'', h')
      | _ =>
          let '(sts'', h') := adam_steps lr wd ps' sts' h in
          (st :: sts'', h')
      end
  | _, _ => (sts, h)
  end.

Definition step_optimizer (opt : Optimizer) (h : Heap) : Optimizer * Heap :=
  let '(sts, h') :=
    adam_steps (opt_lr opt) (opt_weight_decay opt) (opt_params opt)
               (opt_state opt) h in
  (mk_opt (opt_params opt) (opt_lr opt) (opt_weight_decay opt) sts, h').

(** [soft_update(local_model, target_model, tau)]:
    [for target_param, local_param in zip(target_model.parameters(),
     local_model.parameters()):
       target_param.data.copy_(tau*local_param.data
                               + (1.0-tau)*target_param.data)] *)
Definition soft_update (local_model target_model : Net) (tau : Qc) (h : Heap)
  : result Heap :=
  for_each (zip target_model local_model)
    (λ '(target_param, local_param) h,
       t ← getparam h target_param;
       l ← getparam h local_param;
       v ← torch_op Qcplus (scale tau (data l)) (scale (1 - tau) (data t));
       d ← torch_copy_ (data t) v;
       Ok (<[target_param := mk_param d (grad t)]> h))
    h.

(** [hard_update(target_model, local_model)]:
    [target_param.data.copy_(local_param.data)] over the zipped
    parameters. *)
Definition hard_update (target_model local_model : Net) (h : Heap)
  : result Heap :=
  for_each (zip target_model local_model)
    (λ '(target_param, local_param) h,
       t ← getparam h target_param;
       l ← getparam h local_param;
       d ← torch_copy_ (data t) (data l);
       Ok (<[target_param := mk_param d (grad t)]> h))
    h.

End Networks.

(** ** The learning phase: what the two [learn] methods share *)

Section Learn.
Context `{External}.

(** The networks and optimizers an agent holds. *)
Record Models : Type := mk_models {
  actor_local : Net;
  actor_target : Net;
  actor_optimizer : Optimizer;
  critic_local : Net;
  critic_target : Net;
  critic_optimizer : Optimizer;
}.

(** [rewards + (gamma * Q_targets_next * (1 - dones))], on float32
    tensors: the rewards and flags of the batch were converted by
    [.float()], the scalar [gamma] takes the tensor's type. *)
Definition td_target (rewards : Tensor) (gamma : Qc)
    (Q_targets_next : list float) (dones : Tensor) : result (list float) :=
  b ← ftorch_op fmul (fmul (fl gamma) <$> Q_targets_next)
        (fl <$> rsub 1 dones);
  ftorch_op fadd (fl <$> rewards) b.

(** [actions_next = self.actor_target(next_states)],
    [Q_targets_next = self.critic_target(next_states, actions_next)],
    [Q_targets = rewards + (gamma * Q_targets_next * (1 - dones))] *)
Definition Q_targets_next_of (m : Models) (experiences : Batch) (h : Heap)
  : list float :=
  let '(states, actions, rewards, next_states, dones) := experiences in
  let actions_next :=
    Actor_forward train (values h (actor_target m)) next_states in
  Critic_forward train (values h (critic_target m)) next_states actions_next.

Definition Q_targets_of (m : Models) (experiences : Batch) (gamma : Qc)
    (h : Heap) : result (list float) :=
  let '(states, actions, rewards, next_states, dones) := experiences in
  td_target rewards gamma (Q_targets_next_of m experiences h) dones.

(** The critic update: the TD targets, [F.mse_loss(Q_expected,
    Q_targets)], [zero_grad], [backward], [step]. *)
Definition update_critic (m : Models) (experiences : Batch) (gamma : Qc)
    (h : Heap) : result (Models * Heap) :=
  let '(states, actions, rewards, next_states, dones) := experiences in
  Q_targets ← Q_targets_of m experiences gamma h;
  let Q_expected :=
    Critic_forward train (values h (critic_local m)) states actions in
  _ ← ftorch_op fsub Q_expected Q_targets;
  let h1 := zero_grad (critic_optimizer m) h in
  let '(g_local, g_target, g_actor) :=
    critic_loss_backward (values h1 (critic_local m))
      (values h1 (critic_target m)) (values h1 (actor_target m))
      experiences Q_targets in
  let h2 := accumulate (critic_local m) g_local h1 in
  let h3 := accumulate (critic_target m) g_target h2 in
  let h4 := accumulate (actor_target m) g_actor h3 in
  let '(opt, h5) := step_optimizer (critic_optimizer m) h4 in
  Ok (mk_models (actor_local m) (actor_target m) (actor_optimizer m)
        (critic_local m) (critic_target m) opt, h5).

(** The actor update: [actor_loss =
    -self.critic_local(states, self.actor_local(states)).mean()],
    [zero_grad], [backward], [step] of the actor's optimizer. *)
Definition update_actor (m : Models) (experiences : Batch) (h : Heap)
  : Models * Heap :=
  let '(states, actions, rewards, next_states, dones) := experiences in
  let h1 := zero_grad (actor_optimizer m) h in
  let '(g_actor, g_critic) :=
    actor_loss_backward (values h1 (actor_local m))
      (values h1 (critic_local m)) states in
  let h2 := accumulate (actor_local m) g_actor h1 in
  let h3 := accumulate (critic_local m) g_critic h2 in
  let '(opt, h4) := step_optimizer (actor_optimizer m) h3 in
  (mk_models (actor_local m) (actor_target m) opt
     (critic_local m) (critic_target m) (critic_optimizer m), h4).

(** [self.soft_update(self.critic_local, self.critic_target, TAU)],
    [self.soft_update(self.actor_local, self.actor_target, TAU)] *)
Definition update_targets (m : Models) (h : Heap) : result Heap :=
  h1 ← soft_update (critic_local m) (critic_target m) TAU h;
  soft_update (actor_local m) (actor_target m) TAU h1.

(** The three blocks of [learn] in order. *)
Definition learn_models (m : Models) (experiences : Batch) (gamma : Qc)
    (h : Heap) : result (Models * Heap) :=
  '(m1, h1) ← update_critic m experiences gamma h;
  let '(m2, h2) := update_actor m1 experiences h1 in
  h3 ← update_targets m2 h2;
  Ok (m2, h3).

(** One row of the five arrays [step] receives. *)
Definition transition (states actions : list Tensor) (rewards : list Qc)
    (next_states : list Tensor) (dones : list bool) (i : nat)
  : result Experience :=
  s ← getitem states i;
  a ← getitem actions i;
  r ← getitem rewards i;
  s' ← getitem next_states i;
  d ← getitem dones i;
  Ok (experience s a r s' d).

(** [action += noise_sample] on a two-dimensional [action]. *)
Definition add_rows (action : list Tensor) (v : Tensor)
  : result (list Tensor) :=
  mapM (λ row, np_iop Qcplus row v) action.

End Learn.

(** ** [ddpg_agent.py] *)

Module Original.
Section Agent.
Context `{External}.

Definition BATCH_SIZE : Z := 512.
Definition EPS_MIN : Qc := Q2Qc (1 # 10).
Definition EPS_MAX : Qc := 1.
Definition EPS_DECAY : Qc := 0.

Record Agent : Type := mk_agent {
  state_size : nat;
  action_size : nat;
  gamma : Qc;
  tau : Qc;
  lr_actor : Qc;
  lr_critic : Qc;
  weight_decay : Qc;
  mu : Qc;
  theta : Qc;
  sigma : Qc;
  learning_rate : Z;
  time_update : Z;
  eps_max : Qc;
  eps_min : Qc;
  eps_decay : Qc;
  eps : Qc;
  num_agents : Z;
  models : Models;
  noise : list OUNoise.t;
  memory : ReplayBuffer.t;
}.

Definition set_memory (self : Agent) (b : ReplayBuffer.t) : Agent :=
  mk_agent (state_size self) (action_size self) (gamma self) (tau self)
    (lr_actor self) (lr_critic self) (weight_decay self) (mu self)
    (theta self) (sigma self) (learning_rate self) (time_update self)
    (eps_max self) (eps_min self) (eps_decay self) (eps self)
    (num_agents self) (models self) (noise self) b.

Definition set_noise (self : Agent) (n : list OUNoise.t) : Agent :=
  mk_agent (state_size self) (action_size self) (gamma self) (tau self)
    (lr_actor self) (lr_critic self) (weight_decay self) (mu self)
    (theta self) (sigma self) (learning_rate self) (time_update self)
    (eps_max self) (eps_min self) (eps_decay self) (eps self)
    (num_agents self) (models self) n (memory self).

Definition set_learned (self : Agent) (m : Models) (e : Qc) : Agent :=
  mk_agent (state_size self) (action_size self) (gamma self) (tau self)
    (lr_actor self) (lr_critic self) (weight_decay self) (mu self)
    (theta self) (sigma self) (learning_rate self) (time_update self)
    (eps_max self) (eps_min self) (eps_decay self) e
    (num_agents self) m (noise self) (memory self).

(** [Agent.__init__] *)
Definition init (num_agents : Z) (state_size action_size : nat)
    (random_seed : Z)
    (gamma tau lr_actor lr_critic weight_decay mu theta sigma : Qc)
    (learn_rate time_update : Z) (eps_max eps_min eps_decay : Qc)
    (w : World) : result (Agent * World) :=
  let r := seed_stream random_seed in
  let '(wa, g1) := Actor_new state_size action_size random_seed (gen w) in
  let '(actor_local, h1) := alloc wa (heap w) in
  let '(wa', g2) := Actor_new state_size action_size random_seed g1 in
  let '(actor_target, h2) := alloc wa' h1 in
  let actor_optimizer := Adam actor_local lr_actor 0 in
  let '(wc, g3) := Critic_new state_size action_size random_seed g2 in
  let '(critic_local, h3) := alloc wc h2 in
  let '(wc', g4) := Critic_new state_size action_size random_seed g3 in
  let '(critic_target, h4) := alloc wc' h3 in
  let critic_optimizer := Adam critic_local lr_critic weight_decay in
  let noise :=
    fmap (λ _, OUNoise.init action_size mu theta sigma) (range num_agents) in
  memory ← ReplayBuffer.init action_size BUFFER_SIZE BATCH_SIZE num_agents;
  h5 ← hard_update actor_target actor_local h4;
  h6 ← hard_update critic_target critic_local h5;
  Ok (mk_agent state_size action_size gamma tau lr_actor lr_critic
        weight_decay mu theta sigma learn_rate time_update
        eps_max eps_min eps_decay eps_max num_agents
        (mk_models actor_local actor_target actor_optimizer
           critic_local critic_target critic_optimizer)
        noise memory,
      mk_world h6 r g4).

(** [ReplayBuffer.add]: one experience per agent. *)
Definition add (self : ReplayBuffer.t) (states actions : list Tensor)
    (rewards : list Qc) (next_states : list Tensor) (dones : list bool)
  : result ReplayBuffer.t :=
  for_each (range (ReplayBuffer.num_agents self))
    (λ i self,
       e_i ← transition states actions rewards next_states dones i;
       Ok (ReplayBuffer.append self e_i))
    self.

(** [Agent.learn] *)
Definition learn (experiences : Batch) (gamma : Qc) (self : Agent)
    (w : World) : result (Agent * World) :=
  '(m, h) ← learn_models (models self) experiences gamma (heap w);
  let e := py_max (eps self - eps_decay self) (eps_min self) in
  Ok (set_learned self m e, set_heap w h).

(** [Agent.step] *)
Definition step (time_step : Z) (states actions : list Tensor)
    (rewards : list Qc) (next_states : list Tensor) (dones : list bool)
    (self : Agent) (w : World) : result (Agent * World) :=
  mem ← add (memory self) states actions rewards next_states dones;
  let self := set_memory self mem in
  if decide (time_update self = 0)%Z then Raise ZeroDivisionError
  else if decide (time_step `mod` time_update self > 0)%Z then Ok (self, w)
  else if decide (ReplayBuffer.len (memory self) > BATCH_SIZE)%Z then
    for_each (range (learning_rate self))
      (λ _ '(self, w),
         '(experiences, r) ← ReplayBuffer.sample (memory self) (rng w);
         learn experiences (gamma self) self (set_rng w r))
      (self, w)
  else Ok (self, w).

(** [Agent.act] *)
Definition act (state : list Tensor) (add_noise : bool) (self : Agent)
    (w : World) : result (list Tensor * Agent * World) :=
  let action :=
    Actor_forward eval (values (heap w) (actor_local (models self))) state in
  '(action, noise, r) ←
    (if add_noise then
       for_each (range (num_agents self))
         (λ i '(action, noise, r),
            n ← getitem noise i;
            '(sample, n', r') ← OUNoise.sample n r;
            action' ← add_rows action sample;
            Ok (action', <[i := n']> noise, r'))
         (action, noise self, rng w)
     else Ok (action, noise self, rng w));
  Ok (np_clip action (-1) 1, set_noise self noise, set_rng w r).

(** [Agent.reset] *)
Definition reset (self : Agent) : result Agent :=
  noise ← for_each (range (num_agents self))
    (λ i noise, n ← getitem noise i; Ok (<[i := OUNoise.reset n]> noise))
    (noise self);
  Ok (set_noise self noise).

End Agent.
End Original.

(** ** [ddpg_agent_updated.py] *)

Module Updated.
Section Agent.
Context `{External}.

Definition BATCH_SIZE : Z := 256.

Record Agent : Type := mk_agent {
  state_size : nat;
  action_size : nat;
  gamma : Qc;
  tau : Qc;
  lr_actor : Qc;
  lr_critic : Qc;
  weight_decay : Qc;
  mu : Qc;
  theta : Qc;
  sigma : Qc;
  learning_rate : Z;
  time_update : Z;
  num_agents : Z;
  batch_size : Z;
  buffer_size : Z;
  models : Models;
  noise : OUNoise.t;
  memory : ReplayBuffer.t;
}.

Definition set_memory (self : Agent) (b : ReplayBuffer.t) : Agent :=
  mk_agent (state_size self) (action_size self) (gamma self) (tau self)
    (lr_actor self) (lr_critic self) (weight_decay self) (mu self)
    (theta self) (sigma self) (learning_rate self) (time_update self)
    (num_agents self) (batch_size self) (buffer_size self)
    (models self) (noise self) b.

Definition set_noise (self : Agent) (n : OUNoise.t) : Agent :=
  mk_agent (state_size self) (action_size self) (gamma self) (tau self)
    (lr_actor self) (lr_critic self) (weight_decay self) (mu self)
    (theta self) (sigma self) (learning_rate self) (time_update self)
    (num_agents self) (batch_size self) (buffer_size self)
    (models self) n (memory self).

Definition set_models (self : Agent) (m : Models) : Agent :=
  mk_agent (state_size self) (action_size self) (gamma self) (tau self)
    (lr_actor self) (lr_critic self) (weight_decay self) (mu self)
    (theta self) (sigma self) (learning_rate self) (time_update self)
    (num_agents self) (batch_size self) (buffer_size self)
    m (noise self) (memory self).

(** [Agent.__init__]: the target networks are left as built. *)
Definition init (num_agents : Z) (state_size action_size : nat)
    (random_seed : Z)
    (gamma tau lr_actor lr_critic weight_decay mu theta sigma : Qc)
    (learn_rate time_update batch_size buffer_size : Z)
    (w : World) : result (Agent * World) :=
  let r := seed_stream random_seed in
  let '(wa, g1) := Actor_new state_size action_size random_seed (gen w) in
  let '(actor_local, h1) := alloc wa (heap w) in
  let '(wa', g2) := Actor_new state_size action_size random_seed g1 in
  let '(actor_target, h2) := alloc wa' h1 in
  let actor_optimizer := Adam actor_local lr_actor 0 in
  let '(wc, g3) := Critic_new state_size action_size random_seed g2 in
  let '(critic_local, h3) := alloc wc h2 in
  let '(wc', g4) := Critic_new state_size action_size random_seed g3 in
  let '(critic_target, h4) := alloc wc' h3 in
  let critic_optimizer := Adam critic_local lr_critic weight_decay in
  let noise := OUNoise.init action_size mu theta sigma in
  mem ← ReplayBuffer.init action_size buffer_size batch_size num_agents;
  Ok (mk_agent state_size action_size gamma tau lr_actor lr_critic
        weight_decay mu theta sigma learn_rate time_update
        num_agents batch_size buffer_size
        (mk_models actor_local actor_target actor_optimizer
           critic_local critic_target critic_optimizer)
        noise mem,
      mk_world h4 r g4).

(** [ReplayBuffer.add]: one experience. *)
Definition add (self : ReplayBuffer.t) (states actions : Tensor)
    (rewards : Qc) (next_states : Tensor) (dones : bool) : ReplayBuffer.t :=
  ReplayBuffer.append self
    (experience states actions rewards next_states dones).

(** [Agent.learn] (its [print] of a tensor size is left out) *)
Definition learn (experiences : Batch) (gamma : Qc) (self : Agent)
    (w : World) : result (Agent * World) :=
  '(m, h) ← learn_models (models self) experiences gamma (heap w);
  Ok (set_models self m, set_heap w h).

(** [Agent.step] *)
Definition step (time_step : Z) (states actions : list Tensor)
    (rewards : list Qc) (next_states : list Tensor) (dones : list bool)
    (self : Agent) (w : World) : result (Agent * World) :=
  mem ← for_each (range (num_agents self))
    (λ i mem,
       e ← transition states actions rewards next_states dones i;
       Ok (add mem (state e) (action e) (reward e) (next_state e) (done e)))
    (memory self);
  let self := set_memory self mem in
  if decide (time_update self = 0)%Z then Raise ZeroDivisionError
  else if decide (time_step `mod` time_update self > 0)%Z then Ok (self, w)
  else if decide (ReplayBuffer.len (memory self) > batch_size self)%Z then
    for_each (range (learning_rate self))
      (λ _ '(self, w),
         '(experiences, r) ← ReplayBuffer.sample (memory self) (rng w);
         learn experiences (gamma self) self (set_rng w r))
      (self, w)
  else Ok (self, w).

(** [Agent.act] *)
Definition act (states : list Tensor) (add_noise : bool) (self : Agent)
    (w : World) : result (list Tensor * Agent * World) :=
  if decide (num_agents self < 0)%Z then Raise ValueError else
  let actions :=
    replicate (Z.to_nat (num_agents self)) (replicate (action_size self) 0) in
  actions ← for_each (zip (seq 0 (length states)) states)
    (λ '(agent_num, state) actions,
       let action :=
         Actor_forward1 eval (values (heap w) (actor_local (models self)))
           state in
       row ← getitem actions agent_num;
       row' ← np_iop (λ _ src, src) row action;
       Ok (<[agent_num := row']> actions))
    actions;
  '(actions, n, r) ←
    (if add_noise then
       '(sample, n', r') ← OUNoise.sample (noise self) (rng w);
       actions' ← add_rows actions sample;
       Ok (actions', n', r')
     else Ok (actions, noise self, rng w));
  Ok (np_clip actions (-1) 1, set_noise self n, set_rng w r).

(** [Agent.reset] *)
Definition reset (self : Agent) : Agent :=
  set_noise self (OUNoise.reset (noise self)).

End Agent.
End Updated.

(** * Notions the theorems are stated with *)

(** ** The replay buffer *)

(** The arrays of one [step] / [ReplayBuffer.add] call. *)
Definition Arrays : Type :=
  (list Tensor * list Tensor * list Qc * list Tensor * list bool)%type.

(** The transitions of the first [n] rows of the arrays. *)
Definition rows (n : Z) (c : Arrays) : list Experience :=
  let '(states, actions, rewards, next_states, dones) := c in
  omap (λ i, match transition states actions rewards next_states dones i with
             | Ok e => Some e
             | Raise _ => None
             end) (range n).

(** Successive [add] calls of [ddpg_agent.py]. *)
Definition Original_adds (calls : list Arrays) (b : ReplayBuffer.t)
  : result ReplayBuffer.t :=
  for_each calls
    (λ '(states, actions, rewards, next_states, dones) b,
       Original.add b states actions rewards next_states dones) b.

(** Successive [add] calls of [ddpg_agent_updated.py]. *)
Definition Updated_adds (es : list Experience) (b : ReplayBuffer.t)
  : ReplayBuffer.t :=
  foldl (λ b e, Updated.add b (state e) (action e) (reward e) (next_state e)
                  (done e)) b es.

(** The buffer write of [step] in [ddpg_agent_updated.py]. *)
Definition Updated_write (self : ReplayBuffer.t) (n : Z)
    (states actions : list Tensor) (rewards : list Qc)
    (next_states : list Tensor) (dones : list bool) : result ReplayBuffer.t :=
  for_each (range n)
    (λ i mem,
       e ← transition states actions rewards next_states dones i;
       Ok (Updated.add mem (state e) (action e) (reward e) (next_state e)
             (done e)))
    self.

(** The last [c] elements of a list. *)
Definition lastn {A} (c : nat) (xs : list A) : list A :=
  drop (length xs - c) xs.

(** The five tensors made of a list of transitions, as
    [ReplayBuffer.sample] stacks them. *)
Definition collate (es : list Experience) : Batch :=
  (fmap state es, fmap action es, fmap reward es, fmap next_state es,
   fmap (λ e, uint8 (done e)) es).

(** The stored vectors have one dimension each, as the transitions of
    one environment do. *)
Definition same_dims (es : list Experience) : Prop :=
  ∀ e e', e ∈ es → e' ∈ es →
    length (state e) = length (state e') ∧
    length (action e) = length (action e') ∧
    length (next_state e) = length (next_state e').

(** The positions [random.sample] selects: the call on the population
    of the positions [0 .. n-1] themselves. *)
Definition sample_positions (n : nat) (k : Z) (r : Rng)
  : result (list nat * Rng) :=
  random_sample (seq 0 n) k r.

(** The raw outputs still to come, as [randbelow(n)] reads them. *)
Definition draws (n : nat) (r : Rng) : list nat :=
  (λ x, N.to_nat (x `mod` N.of_nat n)) <$> r.

(** The outcomes of the [randbelow] calls of the selection loop. *)
Fixpoint sample_choices (n : nat) (idxs : list nat) (r : Rng) : list nat :=
  match idxs with
  | [] => []
  | i :: idxs' =>
      let '(j, r1) := randbelow (n - i) r in
      j :: sample_choices n idxs' r1
  end.

(** ** The noise process *)

(** [k] successive [sample()] calls on one noise process, with the
    samples they return. *)
Fixpoint OUNoise_samples (k : nat) (self : OUNoise.t) (r : Rng)
  : result (list Tensor * OUNoise.t * Rng) :=
  match k with
  | O => Ok ([], self, r)
  | S k' =>
      '(s, self', r') ← OUNoise.sample self r;
      '(ss, self'', r'') ← OUNoise_samples k' self' r';
      Ok (s :: ss, self'', r'')
  end.

(** A number of the half-open unit interval. *)
Definition unit_interval (u : Qc) : Prop := 0 ≤ u ∧ u < 1.

(** The update of the noise state in the specification's words:
    [state + theta * (mu - state) + sigma * xi], coordinate by
    coordinate. *)
Definition ou_next (n : OUNoise.t) (xi : Tensor) : Tensor :=
  zip_with Qcplus (OUNoise.state n)
    (zip_with Qcplus
       (scale (OUNoise.theta n)
          (zip_with Qcminus (OUNoise.mu n) (OUNoise.state n)))
       (scale (OUNoise.sigma n) xi)).

(** ** The parameter store *)

(** The parameter identities of an agent's networks are pairwise
    distinct and each optimizer holds those of its local network: what
    [__init__] sets up and no method changes. *)
Definition models_wf `{External} (m : Models) : Prop :=
  NoDup (actor_local m ++ actor_target m ++ critic_local m ++ critic_target m)
  ∧ opt_params (actor_optimizer m) = actor_local m
  ∧ opt_params (critic_optimizer m) = critic_local m.

(** Target and local parameter of a pair exist and have one shape. *)
Definition paired (h : Heap) (t l : nat) : Prop :=
  ∃ tc lc, h !! t = Some tc ∧ h !! l = Some lc ∧
           length (data tc) = length (data lc).

(** The blend of the soft update on one tensor, in the docstring's
    words: [tau * local + (1 - tau) * target], coordinate by coordinate. *)
Definition blend (tau : Qc) (local target : Tensor) : Tensor :=
  zip_with Qcplus (scale tau local) (scale (1 - tau) target).

(** The store cells of freshly built parameters. *)
Definition fresh (ws : list Tensor) : Heap := (λ w, mk_param w None) <$> ws.

(** ** Learning phases *)

(** [k] runs of a step [f] in a row, stopping at the first exception. *)
Fixpoint repeat_m {S : Type} (k : nat) (f : S → result S) (s : S) : result S :=
  match k with
  | O => Ok s
  | S k' => s' ← f s; repeat_m k' f s'
  end.

(** One learning phase as [step] runs it: a fresh batch is drawn from
    the agent's buffer, then [learn] is called on it. *)
Definition Original_phase `{External} (s : Original.Agent * World)
  : result (Original.Agent * World) :=
  let '(self, w) := s in
  '(experiences, r) ← ReplayBuffer.sample (Original.memory self) (rng w);
  Original.learn experiences (Original.gamma self) self (set_rng w r).

Definition Updated_phase `{External} (s : Updated.Agent * World)
  : result (Updated.Agent * World) :=
  let '(self, w) := s in
  '(experiences, r) ← ReplayBuffer.sample (Updated.memory self) (rng w);
  Updated.learn experiences (Updated.gamma self) self (set_rng w r).

(** ** Action selection *)

(** A coordinate of the action space. *)
Definition in_action_space (x : Qc) : Prop := -1 ≤ x ∧ x ≤ 1.

(** The actions of [ddpg_agent_updated.py]'s [act] before noise and
    clipping: a zero array with one row per agent, filled row by row
    from the actor. *)
Definition Updated_raw_actions `{External} (states : list Tensor)
    (self : Updated.Agent) (w : World) : result (list Tensor) :=
  if decide (Updated.num_agents self < 0)%Z then Raise ValueError else
  for_each (zip (seq 0 (length states)) states)
    (λ '(agent_num, state) actions,
       let action :=
         Actor_forward1 eval
           (values (heap w) (actor_local (Updated.models self))) state in
       row ← getitem actions agent_num;
       row' ← np_iop (λ _ src, src) row action;
       Ok (<[agent_num := row']> actions))
    (replicate (Z.to_nat (Updated.num_agents self))
       (replicate (Updated.action_size self) 0)).

(** Each agent's row gets a noise sample of its own: exploration as the
    specification words it. *)
Definition add_own_noise (action samples : list Tensor)
  : result (list Tensor) :=
  mapM (λ '(row, s), np_iop Qcplus row s) (zip action samples).

(** In the specification's words, to compare [act] with: [act] of
    [ddpg_agent.py] with each agent's action perturbed by the one
    sample of its own process. *)
Definition Original_act_own_noise `{External} (state : list Tensor)
    (self : Original.Agent) (w : World) : result (list Tensor) :=
  let action :=
    Actor_forward eval (values (heap w) (actor_local (Original.models self)))
      state in
  '(samples, _, _) ←
    for_each (range (Original.num_agents self))
      (λ i '(samples, noise, r),
         n ← getitem noise i;
         '(sample, n', r') ← OUNoise.sample n r;
         Ok (samples ++ [sample], <[i := n']> noise, r'))
      ([], Original.noise self, rng w);
  action' ← add_own_noise action samples;
  Ok (np_clip action' (-1) 1).

(** In the specification's words, to compare [act] with: [act] of
    [ddpg_agent_updated.py] with each agent's action perturbed by a
    sample of its own, drawn from the one process. *)
Definition Updated_act_own_noise `{External} (states : list Tensor)
    (self : Updated.Agent) (w : World) : result (list Tensor) :=
  raw ← Updated_raw_actions states self w;
  '(samples, _, _) ←
    OUNoise_samples (Z.to_nat (Updated.num_agents self))
      (Updated.noise self) (rng w);
  action' ← add_own_noise raw samples;
  Ok (np_clip action' (-1) 1).

(** ** A small concrete collaborator

    An instance of the interface to evaluate the embedding on: the
    actor answers with its single parameter vector, the critic with its
    single parameter, gradients are all ones, the optimizer is plain
    gradient descent, and each network built draws the next integer of
    torch's generator for its initial weights. *)

Definition toy_weight (g : nat) : Qc := Q2Qc (inject_Z (Z.of_nat g)).

Definition toy_Actor_new (s a : nat) (seed : Z) (g : nat)
  : list Tensor * nat :=
  ([replicate a (toy_weight g)], S g).

Definition toy_Critic_new (s a : nat) (seed : Z) (g : nat)
  : list Tensor * nat :=
  ([[toy_weight g]], S g).

Definition toy_ones (ps : list Tensor) : list Tensor :=
  (λ p : Tensor, (λ _, 1) <$> p) <$> ps.

Lemma toy_Actor_new_shape s a seed g g' :
  length <$> (toy_Actor_new s a seed g).1 =
  length <$> (toy_Actor_new s a seed g').1.
Proof. simpl. by rewrite !length_replicate. Qed.

Lemma toy_Critic_new_shape s a seed g g' :
  length <$> (toy_Critic_new s a seed g).1 =
  length <$> (toy_Critic_new s a seed g').1.
Proof. done. Qed.

Lemma toy_Critic_forward_length (m : mode) (ps s a : list Tensor) :
  length ((λ _, fl (hd 0 (hd [] ps))) <$> s) = length s.
Proof. apply length_fmap. Qed.

Definition toy : External := {|
  seed_stream seed := [Z.to_N seed];
  torch_gen := nat;
  Actor_new := toy_Actor_new;
  Critic_new := toy_Critic_new;
  Actor_forward m ps states := (λ _, hd [] ps) <$> states;
  Actor_forward1 m ps state := hd [] ps;
  Critic_forward m ps states actions :=
    (λ _, fl (hd 0 (hd [] ps))) <$> states;
  critic_loss_backward cl ct at_ batch Q :=
    (toy_ones cl, toy_ones ct, toy_ones at_);
  actor_loss_backward al cl states := (toy_ones al, toy_ones cl);
  adam_state := unit;
  adam_new := tt;
  adam_update lr wd st d g := (zip_with (λ x y, x - lr * y) d g, tt);
  Actor_new_shape := toy_Actor_new_shape;
  Critic_new_shape := toy_Critic_new_shape;
  Critic_forward_length := toy_Critic_forward_length;
|}.

(** ** Concrete inputs *)

(** Sample transitions and a buffer of capacity two. *)
Definition ex_e (i : Z) (d : bool) : Experience :=
  experience [Q2Qc (inject_Z i)] [0] (Q2Qc (inject_Z i)) [Q2Qc (inject_Z i) + 1]
    d.

Definition ex_empty_buffer (capacity batch : Z) : ReplayBuffer.t :=
  ReplayBuffer.mk 1 (mk_deque [] capacity) batch 1.

Definition ex_buffer : ReplayBuffer.t :=
  Updated_adds [ex_e 1 false; ex_e 2 true; ex_e 3 false] (ex_empty_buffer 2 2).

(** The example buffer with a batch size of zero. *)
Definition ex_buffer_batch0 : ReplayBuffer.t :=
  Updated_adds [ex_e 1 false; ex_e 2 true; ex_e 3 false] (ex_empty_buffer 2 0).

(** A buffer of 22 transitions, above the [setsize] of a batch of two. *)
Definition ex_buffer22 : ReplayBuffer.t :=
  Updated_adds ((λ i, ex_e (Z.of_nat i) false) <$> seq 0 22)
    (ex_empty_buffer 22 2).

(** A raw stream: [2^52] is read as one half by [random.random()]. *)
Definition ex_rng : Rng := [2 ^ 52; 5; 2 ^ 51; 7; 11; 2 ^ 52]%N.

(** A raw stream read as one half, one quarter, one half, one quarter. *)
Definition ex_rng_halves : Rng := [2 ^ 52; 2 ^ 51; 2 ^ 52; 2 ^ 51]%N.

(** A noise process with zero drift and zero scale, and one with both. *)
Definition ex_noise_still : OUNoise.t := OUNoise.init 2 (Q2Qc (1 # 2)) 0 0.
Definition ex_noise : OUNoise.t :=
  OUNoise.init 2 (Q2Qc (1 # 2)) (Q2Qc (15 # 100)) (Q2Qc (2 # 10)).

(** Networks of the small collaborator as [__init__] lays them out, and a
    store for them. *)
Definition ex_models : Models (H := toy) :=
  mk_models (H := toy) [0%nat] [1%nat] (Adam (H := toy) [0%nat] LR_ACTOR 0)
    [2%nat] [3%nat] (Adam (H := toy) [2%nat] LR_CRITIC 0).

Definition ex_heap : Heap :=
  [mk_param [0; 0] None; mk_param [1; 1] None;
   mk_param [Q2Qc 2] None; mk_param [Q2Qc 3] None].

(** The store with a target critic whose value is large: twice it is
    beyond the float32 range. *)
Definition ex_heap_large : Heap :=
  [mk_param [0; 0] None; mk_param [1; 1] None;
   mk_param [Q2Qc 2] None; mk_param [Q2Qc (inject_Z (3 * 10 ^ 38))] None].

(** Agents built over the small collaborator: two agents, actions of
    one coordinate, soft-update rate one half, noise with mean zero and
    no drift. *)
Definition ex_world : World (H := toy) := mk_world (H := toy) [] [] 0%nat.

Definition ex_original_run (sigma : Qc)
  : result (Original.Agent (H := toy) * World (H := toy)) :=
  Original.init (H := toy) 2 3 1 7 GAMMA (Q2Qc (1 # 2)) LR_ACTOR LR_CRITIC
    0 0 0 sigma 1 1 Original.EPS_MAX Original.EPS_MIN Original.EPS_DECAY
    ex_world.

Definition ex_updated_run (sigma : Qc) (time_update batch_size : Z)
  : result (Updated.Agent (H := toy) * World (H := toy)) :=
  Updated.init (H := toy) 2 3 1 7 GAMMA (Q2Qc (1 # 2)) LR_ACTOR LR_CRITIC
    0 0 0 sigma 1 time_update batch_size 5 ex_world.

(** The arrays of one environment step of two agents. *)
Definition ex_states : list Tensor := [[0; 0; 0]; [1; 1; 1]].
Definition ex_actions : list Tensor := [[0]; [1]].
Definition ex_rewards : list Qc := [1; Q2Qc 2].
Definition ex_dones : list bool := [false; true].

(** A batch of two transitions. *)
Definition ex_batch : Batch := collate [ex_e 2 true; ex_e 3 false].

(** * Theorems *)

(** Closing a decidable closed goal by evaluation. *)
Ltac by_compute :=
  refine (proj1 (bool_decide_eq_true _) _); vm_compute; reflexivity.

Lemma bind_Ok {A B} (m : result A) (f : A → result B) (b : B) :
  m ≫= f = Ok b ↔ ∃ a, m = Ok a ∧ f a = Ok b.
Proof.
  destruct m as [a|e]; simpl; split.
  - eauto.
  - intros (a' & [= <-] & ?). done.
  - done.
  - intros (a' & [=] & _).
Qed.

(** Inversion of a successful monadic computation in a hypothesis. *)
Ltac inv_Ok H :=
  repeat match type of H with
         | _ ≫= _ = Ok _ =>
             let x := fresh "x" in
             let Hx := fresh "Hx" in
             apply bind_Ok in H as (x & Hx & H)
         | Ok _ = Ok _ => injection H as H
         end.

(** ** The bounded deque *)

Section Deque.
Context {A : Type}.
Implicit Types (d : deque A) (xs : list A).

Lemma lastn_all c xs : (length xs ≤ c)%nat → lastn c xs = xs.
Proof.
  intros Hl. unfold lastn.
  by replace (length xs - c)%nat with 0%nat by lia.
Qed.

Lemma lastn_length c xs : length (lastn c xs) = (length xs `min` c)%nat.
Proof. unfold lastn. rewrite length_drop. lia. Qed.

Lemma lastn_snoc c xs x :
  lastn c (xs ++ [x]) =
    let l := lastn c xs ++ [x] in
    if decide (c < length l)%nat then drop 1 l else l.
Proof.
  unfold lastn. simpl. rewrite !length_app, length_drop. simpl.
  case_decide as Hd.
  - rewrite <- drop_app_le by lia. rewrite drop_drop. f_equal. lia.
  - rewrite <- drop_app_le by lia. f_equal. lia.
Qed.

Lemma deque_append_items d x :
  items (deque_append d x) =
    if decide (maxlen d < Z.of_nat (length (items d ++ [x])))%Z
    then drop 1 (items d ++ [x]) else items d ++ [x].
Proof. done. Qed.

Lemma deque_appends_maxlen d xs :
  maxlen (foldl deque_append d xs) = maxlen d.
Proof.
  revert d. induction xs as [|x xs IH]; intros d; [done|].
  simpl. by rewrite IH.
Qed.

(** Appending keeps the last [maxlen] items of what was ever there. *)
Lemma deque_appends_items d xs :
  (0 ≤ maxlen d)%Z →
  (deque_len d ≤ maxlen d)%Z →
  items (foldl deque_append d xs) =
    lastn (Z.to_nat (maxlen d)) (items d ++ xs).
Proof.
  intros Hc Hl. induction xs as [|x xs IH] using rev_ind.
  - simpl. rewrite app_nil_r, lastn_all; [done|]. unfold deque_len in Hl. lia.
  - rewrite foldl_snoc, app_assoc, lastn_snoc. cbv zeta.
    rewrite deque_append_items, deque_appends_maxlen, IH.
    repeat case_decide; try done; lia.
Qed.

Lemma deque_new_Ok (c : Z) d :
  deque_new c = Ok d → (0 ≤ c)%Z ∧ d = mk_deque (A := A) [] c.
Proof. unfold deque_new. case_decide; [done|]. intros [= <-]. split; [lia|done]. Qed.
End Deque.

(** ** The replay buffer *)

Lemma ReplayBuffer_appends_memory (b : ReplayBuffer.t) (es : list Experience) :
  ReplayBuffer.memory (foldl ReplayBuffer.append b es) =
    foldl deque_append (ReplayBuffer.memory b) es.
Proof. revert b. induction es as [|e es IH]; intros b; [done|]. simpl. by rewrite IH. Qed.

Lemma ReplayBuffer_appends_num_agents (b : ReplayBuffer.t) es :
  ReplayBuffer.num_agents (foldl ReplayBuffer.append b es) =
    ReplayBuffer.num_agents b.
Proof. revert b. induction es as [|e es IH]; intros b; [done|]. simpl. by rewrite IH. Qed.

Lemma ReplayBuffer_appends_batch_size (b : ReplayBuffer.t) es :
  ReplayBuffer.batch_size (foldl ReplayBuffer.append b es) =
    ReplayBuffer.batch_size b.
Proof. revert b. induction es as [|e es IH]; intros b; [done|]. simpl. by rewrite IH. Qed.

Lemma Updated_adds_appends es b :
  Updated_adds es b = foldl ReplayBuffer.append b es.
Proof.
  unfold Updated_adds, Updated.add. revert b.
  induction es as [|[] es IH]; intros b; [done|]. simpl. by rewrite IH.
Qed.

(** One [add] of [ddpg_agent.py] appends the rows of its arrays in order. *)
Lemma Original_add_appends (b b' : ReplayBuffer.t) states actions rewards
    next_states dones :
  Original.add b states actions rewards next_states dones = Ok b' →
  b' = foldl ReplayBuffer.append b
         (rows (ReplayBuffer.num_agents b)
            (states, actions, rewards, next_states, dones)).
Proof.
  unfold Original.add, rows.
  generalize (range (ReplayBuffer.num_agents b)) as idxs.
  intros idxs. revert b.
  induction idxs as [|i idxs IH]; intros b Hadd; simpl in *.
  - by injection Hadd as <-.
  - inv_Ok Hadd. inv_Ok Hx. subst x.
    rewrite Hx0. simpl. by apply IH.
Qed.

Lemma Original_adds_appends calls (b b' : ReplayBuffer.t) :
  Original_adds calls b = Ok b' →
  b' = foldl ReplayBuffer.append b
         (concat (fmap (rows (ReplayBuffer.num_agents b)) calls)).
Proof.
  unfold Original_adds. revert b.
  induction calls as [|[[[[s a] r] s'] d] calls IH]; intros b Hadd; simpl in *.
  - by injection Hadd as <-.
  - inv_Ok Hadd. apply Original_add_appends in Hx. subst x.
    apply IH in Hadd. rewrite ReplayBuffer_appends_num_agents in Hadd.
    by rewrite foldl_app.
Qed.

Lemma ReplayBuffer_fifo a (capacity batch n : Z) (b0 : ReplayBuffer.t) es :
  ReplayBuffer.init a capacity batch n = Ok b0 →
  let b := foldl ReplayBuffer.append b0 es in
  (ReplayBuffer.len b ≤ capacity)%Z ∧
  ∀ k : nat, (0 < k)%nat → Z.of_nat (length es) = (capacity + Z.of_nat k)%Z →
    ReplayBuffer.len b = capacity ∧
    items (ReplayBuffer.memory b) = drop k es.
Proof.
  unfold ReplayBuffer.init. intros Hinit. inv_Ok Hinit.
  apply deque_new_Ok in Hx as [Hc ->]. subst b0. cbv zeta.
  unfold ReplayBuffer.len, deque_len.
  rewrite ReplayBuffer_appends_memory. simpl.
  rewrite deque_appends_items; simpl; [|done|unfold deque_len; simpl; lia].
  rewrite lastn_length. split; [lia|].
  intros k Hk Hlen. split; [lia|].
  unfold lastn. f_equal. lia.
Qed.

(** C5. For every sequence of insertions into a replay buffer built with
    capacity [capacity] (through the [add] of either file), the size
    never exceeds the capacity, and after [capacity + k] insertions
    ([k > 0]) the size is the capacity and the contents are the
    transitions inserted after the first [k], in insertion order: the
    oldest are evicted first. *)
Theorem C5_replay_buffer_fifo a (capacity batch n : Z) (b0 : ReplayBuffer.t) :
  ReplayBuffer.init a capacity batch n = Ok b0 →
  (∀ es, let b := Updated_adds es b0 in
     (ReplayBuffer.len b ≤ capacity)%Z ∧
     ∀ k : nat, (0 < k)%nat →
       Z.of_nat (length es) = (capacity + Z.of_nat k)%Z →
       ReplayBuffer.len b = capacity ∧
       items (ReplayBuffer.memory b) = drop k es) ∧
  (∀ calls b, Original_adds calls b0 = Ok b →
     let es := concat (fmap (rows n) calls) in
     (ReplayBuffer.len b ≤ capacity)%Z ∧
     ∀ k : nat, (0 < k)%nat →
       Z.of_nat (length es) = (capacity + Z.of_nat k)%Z →
       ReplayBuffer.len b = capacity ∧
       items (ReplayBuffer.memory b) = drop k es).
Proof.
  intros Hinit. split.
  - intros es. rewrite Updated_adds_appends.
    by apply (ReplayBuffer_fifo a capacity batch n).
  - intros calls b Hadds. apply Original_adds_appends in Hadds.
    assert (ReplayBuffer.num_agents b0 = n) as Hn.
    { unfold ReplayBuffer.init in Hinit. inv_Ok Hinit. by subst b0. }
    rewrite Hn in Hadds. subst b.
    by apply (ReplayBuffer_fifo a capacity batch n).
Qed.

(** ** The noise process *)

Lemma random_random_range r : unit_interval (random_random r).1.
Proof.
  unfold random_random. destruct (getrand r) as [x r']. simpl.
  assert (0 ≤ Z.of_N (x `mod` 2 ^ 53) < Z.pos (2 ^ 53))%Z as Hx.
  { assert (x `mod` 2 ^ 53 < 2 ^ 53)%N as Hlt by by apply N.mod_lt.
    apply N2Z.inj_lt in Hlt. split; [apply N2Z.is_nonneg|exact Hlt]. }
  revert Hx. generalize (Z.of_N (x `mod` 2 ^ 53)) as a.
  generalize (2 ^ 53)%positive as p. intros p a Ha.
  unfold unit_interval, Qcle, Qclt. simpl. rewrite !Qred_correct.
  unfold Qle, Qlt. simpl. lia.
Qed.

Lemma random_vector_spec n r :
  length (random_vector n r).1 = n ∧
  Forall unit_interval (random_vector n r).1.
Proof.
  revert r. induction n as [|n IH]; intros r; simpl.
  - split; [done|constructor].
  - pose proof (random_random_range r) as Hx.
    destruct (random_random r) as [x r1]. specialize (IH r1).
    destruct (random_vector n r1) as [xs r2]. simpl in *.
    destruct IH as [IH1 IH2]. split; [by rewrite IH1|by constructor].
Qed.

Lemma np_op_same f (u v : Tensor) :
  length u = length v → np_op f u v = Ok (zip_with f u v).
Proof. intros Hl. unfold np_op, broadcast2. by rewrite decide_True. Qed.

Lemma ou_next_length (n : OUNoise.t) xi :
  length (OUNoise.state n) = length (OUNoise.mu n) →
  length xi = length (OUNoise.state n) →
  length (ou_next n xi) = length (OUNoise.mu n).
Proof.
  intros Hl Hxi. unfold ou_next, scale.
  rewrite !length_zip_with, !length_fmap, length_zip_with. lia.
Qed.

Lemma OUNoise_sample_Ok (n : OUNoise.t) r :
  length (OUNoise.state n) = length (OUNoise.mu n) →
  let xi := (random_vector (length (OUNoise.state n)) r).1 in
  let r' := (random_vector (length (OUNoise.state n)) r).2 in
  OUNoise.sample n r =
    Ok (ou_next n xi,
        OUNoise.mk (OUNoise.mu n) (OUNoise.theta n) (OUNoise.sigma n)
          (ou_next n xi),
        r').
Proof.
  intros Hl. cbv zeta. unfold OUNoise.sample.
  rewrite np_op_same by done. simpl.
  destruct (random_vector_spec (length (OUNoise.state n)) r) as [Hxi _].
  destruct (random_vector _ r) as [xi r']. simpl in *.
  rewrite np_op_same; last first.
  { unfold scale. rewrite !length_fmap, length_zip_with. lia. }
  simpl. rewrite np_op_same; last first.
  { unfold scale. rewrite !length_zip_with, !length_fmap, length_zip_with.
    lia. }
  done.
Qed.

Lemma ou_next_lookup (n : OUNoise.t) xi j x m u :
  OUNoise.state n !! j = Some x →
  OUNoise.mu n !! j = Some m →
  xi !! j = Some u →
  ou_next n xi !! j =
    Some (x + OUNoise.theta n * (m - x) + OUNoise.sigma n * u).
Proof.
  intros Hx Hm Hu. unfold ou_next, scale.
  rewrite !lookup_zip_with, !list_lookup_fmap, lookup_zip_with, Hx, Hm, Hu.
  simpl. f_equal. ring.
Qed.

Lemma ou_fixed (ms xi : Tensor) :
  length xi = length ms →
  zip_with Qcplus ms
    (zip_with Qcplus (scale 0 (zip_with Qcminus ms ms)) (scale 0 xi)) = ms.
Proof.
  revert xi.
  induction ms as [|m ms IH]; intros [|u xi] Hl; simpl in *; try done.
  f_equal; [ring|]. apply IH. lia.
Qed.

Lemma OUNoise_samples_fixed (n : OUNoise.t) k r :
  OUNoise.theta n = 0 → OUNoise.sigma n = 0 →
  OUNoise.state n = OUNoise.mu n →
  ∃ r', OUNoise_samples k n r = Ok (replicate k (OUNoise.mu n), n, r').
Proof.
  intros Ht Hs Hst. revert r. induction k as [|k IH]; intros r; simpl.
  - by eexists.
  - rewrite OUNoise_sample_Ok by by rewrite Hst. cbv zeta.
    destruct (random_vector_spec (length (OUNoise.state n)) r) as [Hxi _].
    destruct (random_vector _ r) as [xi r1]. simpl in *.
    assert (ou_next n xi = OUNoise.mu n) as ->.
    { unfold ou_next. rewrite Ht, Hs, Hst in *. by apply ou_fixed. }
    replace (OUNoise.mk (OUNoise.mu n) (OUNoise.theta n) (OUNoise.sigma n)
               (OUNoise.mu n)) with n
      by (destruct n; simpl in *; congruence).
    destruct (IH r1) as [r2 ->]. simpl. by eexists.
Qed.

(** C8. [reset()] makes the state equal to the mean vector [mu].  Each
    [sample()] draws one uniform variate of [[0,1)] per coordinate,
    replaces the state by [state + theta * (mu - state) + sigma * xi]
    and returns the new state.  Hence with [theta = 0] and [sigma = 0]
    every sample after a [reset()] returns [mu] and leaves the state at
    [mu]. *)
Theorem C8_ou_noise (n : OUNoise.t) :
  OUNoise.state (OUNoise.reset n) = OUNoise.mu n ∧
  OUNoise.mu (OUNoise.reset n) = OUNoise.mu n ∧
  (∀ r, length (OUNoise.state n) = length (OUNoise.mu n) →
     ∃ xi r' n',
       random_vector (length (OUNoise.state n)) r = (xi, r') ∧
       length xi = length (OUNoise.state n) ∧
       Forall unit_interval xi ∧
       OUNoise.sample n r = Ok (OUNoise.state n', n', r') ∧
       OUNoise.mu n' = OUNoise.mu n ∧
       OUNoise.theta n' = OUNoise.theta n ∧
       OUNoise.sigma n' = OUNoise.sigma n ∧
       length (OUNoise.state n') = length (OUNoise.mu n') ∧
       ∀ j x m u,
         OUNoise.state n !! j = Some x →
         OUNoise.mu n !! j = Some m →
         xi !! j = Some u →
         OUNoise.state n' !! j =
           Some (x + OUNoise.theta n * (m - x) + OUNoise.sigma n * u)) ∧
  (OUNoise.theta n = 0 → OUNoise.sigma n = 0 →
   ∀ k r, ∃ r',
     OUNoise_samples k (OUNoise.reset n) r =
       Ok (replicate k (OUNoise.mu n), OUNoise.reset n, r') ∧
     OUNoise.state (OUNoise.reset n) = OUNoise.mu n).
Proof.
  split; [done|]. split; [done|]. split.
  - intros r Hl.
    pose proof (OUNoise_sample_Ok n r Hl) as Hs. cbv zeta in Hs.
    destruct (random_vector_spec (length (OUNoise.state n)) r) as [Hxi Hu].
    destruct (random_vector _ r) as [xi r']. simpl in *.
    exists xi, r', (OUNoise.mk (OUNoise.mu n) (OUNoise.theta n)
                      (OUNoise.sigma n) (ou_next n xi)).
    simpl. repeat split; try done.
    + by apply ou_next_length.
    + intros j x m u. apply ou_next_lookup.
  - intros Ht Hs k r.
    destruct (OUNoise_samples_fixed (OUNoise.reset n) k r) as [r' Hk]; try done.
    exists r'. split; [exact Hk|done].
Qed.

(** ** Sampling a batch: shape of the result *)

Lemma vstack_Ok rows x : vstack rows = Ok x → x = rows ∧ rows ≠ [].
Proof.
  unfold vstack. destruct rows as [|r rows]; [done|].
  case_decide; [|done]. by intros [= <-].
Qed.

Lemma vstack_scalars_Ok xs x : vstack_scalars xs = Ok x → x = xs ∧ xs ≠ [].
Proof. destruct xs; [done|]. by intros [= <-]. Qed.

Lemma ReplayBuffer_sample_inv (b : ReplayBuffer.t) r batch r' :
  ReplayBuffer.sample b r = Ok (batch, r') →
  ∃ es,
    random_sample (items (ReplayBuffer.memory b)) (ReplayBuffer.batch_size b) r
      = Ok (es, r') ∧
    es ≠ [] ∧
    batch = collate es.
Proof.
  unfold ReplayBuffer.sample. intros Hs. inv_Ok Hs.
  destruct x as [es r1]. inv_Ok Hs.
  apply vstack_Ok in Hx0 as [-> Hne].
  apply vstack_Ok in Hx1 as [-> _].
  apply vstack_scalars_Ok in Hx2 as [-> _].
  apply vstack_Ok in Hx3 as [-> _].
  apply vstack_scalars_Ok in Hx4 as [-> _].
  subst. exists es. split; [done|]. split; [|done].
  intros ->. by apply Hne.
Qed.

(** ** The TD target *)

Lemma torch_op_same f (u v : Tensor) :
  length u = length v → torch_op f u v = Ok (zip_with f u v).
Proof. intros Hl. unfold torch_op, broadcast2. by rewrite decide_True. Qed.

Lemma ftorch_op_same f (u v : list float) :
  length u = length v → ftorch_op f u v = Ok (zip_with f u v).
Proof. intros Hl. unfold ftorch_op. by rewrite decide_True. Qed.

Lemma fl_in_range (q : Qc) : in_range q → fl q = Fin q.
Proof. intros [H1 H2]. unfold fl. by rewrite !decide_False. Qed.

Lemma fl_float32 (q : Qc) : float32 (fl q).
Proof. unfold fl. repeat case_decide; done. Qed.

Lemma fmul_float32 (a b : float) : float32 (fmul a b).
Proof.
  destruct a as [p|s|], b as [q|t|]; simpl; try done;
    try (case_decide; done). apply fl_float32.
Qed.

Lemma in_range_0 : in_range 0.
Proof. split; by_compute. Qed.

Lemma in_range_1 : in_range 1.
Proof. split; by_compute. Qed.

(** Times one: the value itself. *)
Lemma fmul_1_r (a : float) : float32 a → fmul a (fl 1) = a.
Proof.
  rewrite (fl_in_range 1 in_range_1).
  destruct a as [p|s|]; simpl; intros Ha; [| |done].
  - rewrite Qcmult_1_r. by apply fl_in_range.
  - replace (negative 1) with false by by_compute. by destruct s.
Qed.

(** Times zero: zero for a number, a NaN for an infinity or a NaN. *)
Lemma fmul_0_r (a : float) :
  fmul a (fl 0) = match a with Fin _ => Fin 0 | _ => NaN end.
Proof.
  rewrite (fl_in_range 0 in_range_0).
  destruct a as [p|s|]; simpl; [|done|done].
  rewrite Qcmult_0_r. apply (fl_in_range 0 in_range_0).
Qed.

Lemma fadd_0_r (a : float) : float32 a → fadd a (Fin 0) = a.
Proof.
  destruct a as [p|s|]; simpl; intros Ha; [|done|done].
  rewrite Qcplus_0_r. by apply fl_in_range.
Qed.

Lemma fadd_NaN_r (a : float) : fadd a NaN = NaN.
Proof. by destruct a. Qed.

Lemma td_target_Ok (rewards dones : Tensor) (Q_next : list float) gamma :
  length Q_next = length rewards → length dones = length rewards →
  td_target rewards gamma Q_next dones =
    Ok (zip_with fadd (fl <$> rewards)
          (zip_with fmul (fmul (fl gamma) <$> Q_next) (fl <$> rsub 1 dones))).
Proof.
  intros Hq Hd. unfold td_target.
  rewrite ftorch_op_same by (unfold rsub; rewrite !length_fmap; lia).
  simpl. rewrite ftorch_op_same; [done|].
  unfold rsub. rewrite length_zip_with, !length_fmap. lia.
Qed.

Lemma td_target_lookup (rewards dones : Tensor) (Q_next : list float) gamma
    i r q d :
  rewards !! i = Some r → Q_next !! i = Some q → dones !! i = Some d →
  zip_with fadd (fl <$> rewards)
    (zip_with fmul (fmul (fl gamma) <$> Q_next) (fl <$> rsub 1 dones)) !! i
  = Some (fadd (fl r) (fmul (fmul (fl gamma) q) (fl (1 - d)))).
Proof.
  intros Hr Hq Hd. unfold rsub.
  by rewrite !lookup_zip_with, !list_lookup_fmap, Hr, Hq, Hd.
Qed.

(** C1.  In a learning phase on a batch drawn from the buffer, the TD
    target of each sampled transition is computed in float32 from the
    reward [r], the flag and the value [q] that
    [critic_target(next_states, actor_target(next_states))] gives for
    it.  For a transition that is not terminal it is [r + gamma * q].
    For a terminal transition it is the reward itself whenever the
    product [gamma * q] is a number, and a NaN when that product is an
    infinity or a NaN (a critic value that is not finite, or an
    overflow). *)
Theorem C1_td_target `{External} (m : Models) (h : Heap) (gamma : Qc)
    (b : ReplayBuffer.t) (r r' : Rng) (experiences : Batch) :
  ReplayBuffer.sample b r = Ok (experiences, r') →
  ∃ (es : list Experience) (Q_targets : list float),
    experiences = collate es ∧
    let Q_targets_next :=
      Critic_forward train (values h (critic_target m)) (fmap next_state es)
        (Actor_forward train (values h (actor_target m))
           (fmap next_state es)) in
    Q_targets_of m experiences gamma h = Ok Q_targets ∧
    length Q_targets = length es ∧
    ∀ i e, es !! i = Some e →
      ∃ q, Q_targets_next !! i = Some q ∧
        let bootstrap := fmul (fl gamma) q in
        (done e = false →
         Q_targets !! i = Some (fadd (fl (reward e)) bootstrap)) ∧
        (done e = true → finite bootstrap →
         Q_targets !! i = Some (fl (reward e))) ∧
        (done e = true → ¬ finite bootstrap → Q_targets !! i = Some NaN).
Proof.
  intros Hs. apply ReplayBuffer_sample_inv in Hs as (es & _ & _ & ->).
  exists es. eexists. split; [done|]. cbv zeta.
  unfold Q_targets_of, Q_targets_next_of, collate.
  set (Qn := Critic_forward _ _ _ _).
  assert (length Qn = length es) as HQn.
  { unfold Qn. by rewrite Critic_forward_length, length_fmap. }
  rewrite td_target_Ok by (rewrite !length_fmap; lia).
  split; [done|]. fold Qn. split.
  { unfold rsub. rewrite !length_zip_with, !length_fmap. lia. }
  intros i e He.
  destruct (lookup_lt_is_Some_2 Qn i) as [q Hq].
  { rewrite HQn. by eapply lookup_lt_Some. }
  exists q. split; [done|].
  assert (zip_with fadd (fl <$> (reward <$> es))
            (zip_with fmul (fmul (fl gamma) <$> Qn)
               (fl <$> rsub 1 ((λ e, uint8 (done e)) <$> es))) !! i
          = Some (fadd (fl (reward e))
                    (fmul (fmul (fl gamma) q) (fl (1 - uint8 (done e))))))
    as Ht.
  { apply td_target_lookup; [|done|]; by rewrite list_lookup_fmap, He. }
  rewrite Ht. clear Ht.
  assert (1 - uint8 true = 0) as H0 by by_compute.
  assert (1 - uint8 false = 1) as H1 by by_compute.
  split; [|split].
  - intros ->. rewrite H1, fmul_1_r; [done|apply fmul_float32].
  - intros -> Hfin. rewrite H0, fmul_0_r.
    destruct (fmul (fl gamma) q); [|done|done].
    f_equal. apply fadd_0_r, fl_float32.
  - intros -> Hfin. rewrite H0, fmul_0_r.
    destruct (fmul (fl gamma) q); [by destruct Hfin| |];
      by rewrite fadd_NaN_r.
Qed.

(** ** [random.sample]: selection without replacement *)

Lemma randbelow_lt n r : (0 < n)%nat → ((randbelow n r).1 < n)%nat.
Proof.
  intros Hn. unfold randbelow. destruct (getrand r) as [x r']. simpl.
  assert (x `mod` N.of_nat n < N.of_nat n)%N by (apply N.mod_lt; lia).
  lia.
Qed.

(** One step of the selection loop: the selected item leaves the live
    prefix of the pool, the others stay. *)
Lemma pool_step {A} (pool : list A) (m j : nat) (x y : A) :
  (j ≤ m)%nat → pool !! j = Some x → pool !! m = Some y →
  take (S m) pool ≡ₚ x :: take m (<[j := y]> pool).
Proof.
  intros Hj Hx Hy. rewrite (take_S_r _ _ _ Hy).
  destruct (decide (j = m)) as [->|Hne].
  - assert (x = y) as -> by congruence.
    rewrite take_insert_ge by lia. by rewrite Permutation_app_comm.
  - rewrite take_insert_lt by lia.
    assert (take m pool !! j = Some x) as Hx'.
    { rewrite lookup_take_lt by lia. done. }
    apply list_elem_of_split_length in Hx' as (l1 & l2 & Heq & Hl).
    rewrite Heq. subst j. rewrite insert_app_r_alt by lia.
    replace (length l1 - length l1)%nat with 0%nat by lia. simpl.
    rewrite <- (Permutation_middle l1 l2 y).
    rewrite <- app_assoc. simpl.
    rewrite <- (Permutation_middle l1 (l2 ++ [y]) x).
    apply perm_skip. rewrite (Permutation_cons_append (l1 ++ l2) y).
    by rewrite app_assoc.
Qed.

Lemma sample_pool_spec {A} (n k i0 : nat) (pool : list A) (r : Rng) :
  (i0 + k ≤ n)%nat → (n ≤ length pool)%nat →
  NoDup (take (n - i0) pool) →
  let res := (sample_pool n (seq i0 k) pool r).1 in
  length res = k ∧ NoDup res ∧ res ⊆ take (n - i0) pool.
Proof.
  revert i0 pool r. induction k as [|k IH]; intros i0 pool r Hk Hn Hnd.
  { simpl. split; [done|]. split; [constructor|].
    by intros z Hz%elem_of_nil. }
  cbn [seq sample_pool].
  pose proof (randbelow_lt (n - i0) r ltac:(lia)) as Hj.
  destruct (randbelow (n - i0) r) as [j r1]. simpl in Hj.
  destruct (lookup_lt_is_Some_2 pool j ltac:(lia)) as [x Hx].
  destruct (lookup_lt_is_Some_2 pool (n - i0 - 1) ltac:(lia)) as [y Hy].
  rewrite Hx, Hy.
  pose proof (pool_step pool (n - i0 - 1) j x y ltac:(lia) Hx Hy) as Hperm.
  replace (S (n - i0 - 1)) with (n - i0)%nat in Hperm by lia.
  replace (n - i0 - 1)%nat with (n - S i0)%nat in Hperm by lia.
  rewrite Hperm in Hnd. apply NoDup_cons in Hnd as [Hxn Hnd'].
  specialize (IH (S i0) (<[j := y]> pool) r1 ltac:(lia)
                ltac:(rewrite length_insert; lia) Hnd').
  destruct (sample_pool n (seq (S i0) k) (<[j:=y]> pool) r1) as [res r2].
  simpl in *. destruct IH as (Hlen & Hres & Hsub).
  split; [by rewrite Hlen|]. split.
  - apply NoDup_cons. split; [|done]. intros Hin. apply Hxn. by apply Hsub.
  - intros z Hz. rewrite Hperm. apply elem_of_cons in Hz as [->|Hz].
    + by left.
    + right. by apply Hsub.
Qed.

(** The selection loop commutes with relabelling the pool. *)
Lemma sample_pool_fmap {A B} (f : A → B) n idxs (pool : list A) r :
  sample_pool n idxs (f <$> pool) r =
    let '(res, r') := sample_pool n idxs pool r in (f <$> res, r').
Proof.
  revert pool r. induction idxs as [|i idxs IH]; intros pool r; [done|].
  cbn [sample_pool]. destruct (randbelow (n - i) r) as [j r1].
  rewrite !list_lookup_fmap.
  destruct (pool !! j) as [x|]; simpl; [|done].
  destruct (pool !! (n - i - 1)%nat) as [y|]; simpl; [|done].
  rewrite <- list_fmap_insert, IH.
  by destruct (sample_pool n idxs (<[j:=y]> pool) r1).
Qed.

(** Every ordered selection of distinct live items is drawn by some
    generator state. *)
Lemma sample_pool_complete {A} (n k i0 : nat) (pool ps : list A) :
  (i0 + k ≤ n)%nat → (n ≤ length pool)%nat →
  NoDup (take (n - i0) pool) →
  NoDup ps → length ps = k → ps ⊆ take (n - i0) pool →
  ∃ r, (sample_pool n (seq i0 k) pool r).1 = ps.
Proof.
  revert i0 pool ps.
  induction k as [|k IH]; intros i0 pool ps Hk Hn Hnd Hps Hlen Hsub.
  { exists []. destruct ps; [done|discriminate]. }
  destruct ps as [|t ps]; [discriminate|].
  apply NoDup_cons in Hps as [Ht Hps].
  assert (t ∈ take (n - i0) pool) as Hin by (apply Hsub; by left).
  apply list_elem_of_lookup in Hin as [j Hj].
  pose proof (lookup_lt_Some _ _ _ Hj) as Hjlt.
  rewrite length_take in Hjlt.
  rewrite lookup_take_lt in Hj by lia.
  destruct (lookup_lt_is_Some_2 pool (n - i0 - 1) ltac:(lia)) as [y Hy].
  pose proof (pool_step pool (n - i0 - 1) j t y ltac:(lia) Hj Hy) as Hperm.
  replace (S (n - i0 - 1)) with (n - i0)%nat in Hperm by lia.
  replace (n - i0 - 1)%nat with (n - S i0)%nat in Hperm by lia.
  rewrite Hperm in Hnd. apply NoDup_cons in Hnd as [_ Hnd'].
  destruct (IH (S i0) (<[j := y]> pool) ps) as [r' Hr']; try done; try lia.
  { rewrite length_insert. lia. }
  { simpl in Hlen. lia. }
  { intros z Hz. assert (z ∈ take (n - i0) pool) as Hz'
      by (apply Hsub; by right).
    rewrite Hperm in Hz'. apply elem_of_cons in Hz' as [->|Hz']; [done|].
    done. }
  exists (N.of_nat j :: r'). cbn [seq sample_pool].
  unfold randbelow. cbn [getrand].
  rewrite N.mod_small by lia. rewrite Nat2N.id.
  replace (n - i0 - 1)%nat with (n - S i0)%nat by lia.
  rewrite Hj. replace (n - S i0)%nat with (n - i0 - 1)%nat at 1 by lia.
  rewrite Hy.
  destruct (sample_pool n (seq (S i0) k) (<[j:=y]> pool) r') as [res r2].
  simpl in *. by rewrite Hr'.
Qed.

(** Two runs that select the same items made the same choices: no
    selection is reached in two ways. *)
Lemma sample_pool_choices {A} (n k i0 : nat) (pool : list A) (r1 r2 : Rng) :
  (i0 + k ≤ n)%nat → (n ≤ length pool)%nat →
  NoDup (take (n - i0) pool) →
  (sample_pool n (seq i0 k) pool r1).1 = (sample_pool n (seq i0 k) pool r2).1 →
  sample_choices n (seq i0 k) r1 = sample_choices n (seq i0 k) r2.
Proof.
  revert i0 pool r1 r2.
  induction k as [|k IH]; intros i0 pool r1 r2 Hk Hn Hnd Heq; [done|].
  cbn [seq sample_pool sample_choices] in *.
  pose proof (randbelow_lt (n - i0) r1 ltac:(lia)) as Hj1.
  pose proof (randbelow_lt (n - i0) r2 ltac:(lia)) as Hj2.
  destruct (randbelow (n - i0) r1) as [j1 r1'].
  destruct (randbelow (n - i0) r2) as [j2 r2']. simpl in Hj1, Hj2.
  destruct (lookup_lt_is_Some_2 pool j1 ltac:(lia)) as [x1 Hx1].
  destruct (lookup_lt_is_Some_2 pool j2 ltac:(lia)) as [x2 Hx2].
  destruct (lookup_lt_is_Some_2 pool (n - i0 - 1) ltac:(lia)) as [y Hy].
  rewrite Hx1, Hx2, Hy in Heq.
  destruct (sample_pool n (seq (S i0) k) (<[j1:=y]> pool) r1') as [res1 q1]
    eqn:E1.
  destruct (sample_pool n (seq (S i0) k) (<[j2:=y]> pool) r2') as [res2 q2]
    eqn:E2.
  simpl in Heq. injection Heq as Hx Hres. subst x2.
  assert (j1 = j2) as <-.
  { eapply (NoDup_lookup _ _ _ x1 Hnd); by rewrite lookup_take_lt by lia. }
  f_equal.
  pose proof (pool_step pool (n - i0 - 1) j1 x1 y ltac:(lia) Hx1 Hy) as Hperm.
  replace (S (n - i0 - 1)) with (n - i0)%nat in Hperm by lia.
  replace (n - i0 - 1)%nat with (n - S i0)%nat in Hperm by lia.
  rewrite Hperm in Hnd. apply NoDup_cons in Hnd as [_ Hnd'].
  apply (IH (S i0) (<[j1 := y]> pool)); try done; try lia.
  - rewrite length_insert. lia.
  - by rewrite E1, E2.
Qed.

(** The pool loop on a population and on its positions: the same
    generator state selects the items at the selected positions. *)
Lemma sample_pool_positions {A} (population : list A) (k : nat) r :
  (k ≤ length population)%nat →
  let n := length population in
  ∃ ps res r',
    sample_pool n (seq 0 k) (seq 0 n) r = (ps, r') ∧
    sample_pool n (seq 0 k) population r = (res, r') ∧
    length ps = k ∧ NoDup ps ∧
    Forall2 (λ p x, population !! p = Some x) ps res.
Proof.
  intros Hk. cbv zeta. set (n := length population).
  set (zipped := zip (seq 0 n) population).
  assert (population = snd <$> zipped) as Hsnd.
  { unfold zipped. rewrite snd_zip; [done|]. rewrite length_seq. lia. }
  assert (seq 0 n = fst <$> zipped) as Hfst.
  { unfold zipped. rewrite fst_zip; [done|]. rewrite length_seq. lia. }
  replace (sample_pool n (seq 0 k) population r)
    with (sample_pool n (seq 0 k) (snd <$> zipped) r) by by rewrite <- Hsnd.
  replace (sample_pool n (seq 0 k) (seq 0 n) r)
    with (sample_pool n (seq 0 k) (fst <$> zipped) r) by by rewrite <- Hfst.
  rewrite !sample_pool_fmap.
  pose proof (sample_pool_spec n k 0 zipped r ltac:(lia)) as Hspec.
  assert (length zipped = n) as Hzl.
  { unfold zipped. rewrite length_zip, length_seq. lia. }
  assert (NoDup (fst <$> zipped)) as Hnd.
  { rewrite <- Hfst. apply NoDup_seq. }
  specialize (Hspec ltac:(lia)).
  rewrite Nat.sub_0_r, take_ge in Hspec by lia.
  specialize (Hspec (NoDup_fmap_1 fst _ Hnd)).
  destruct (sample_pool n (seq 0 k) zipped r) as [res r'].
  simpl in *. destruct Hspec as (Hlen & Hres & Hsub).
  exists (fst <$> res), (snd <$> res), r'. split; [done|]. split; [done|].
  split; [by rewrite length_fmap|]. split.
  - apply NoDup_fmap_2_strong; [|done].
    intros [p1 x1] [p2 x2] H1 H2 Heq. simpl in Heq. subst p2.
    apply Hsub in H1, H2. unfold zipped in H1, H2.
    apply list_elem_of_lookup in H1 as [i1 H1], H2 as [i2 H2].
    apply lookup_zip_with_Some in H1 as (a1 & b1 & [= <- <-] & Ha1 & Hb1).
    apply lookup_zip_with_Some in H2 as (a2 & b2 & [= <- <-] & Ha2 & Hb2).
    apply lookup_seq in Ha1 as [-> _], Ha2 as [Heq _]. simpl in Heq.
    subst i2. congruence.
  - apply Forall2_fmap. apply Forall_Forall2_diag.
    apply Forall_forall. intros [p x] Hin. simpl.
    apply Hsub in Hin. unfold zipped in Hin.
    apply list_elem_of_lookup in Hin as [i Hi].
    apply lookup_zip_with_Some in Hi as (a & b & [= <- <-] & Ha & Hb).
    apply lookup_seq in Ha as [-> _]. done.
Qed.

(** *** The loop over a set of selected positions *)

Lemma setsize_ge (k : Z) : (21 ≤ setsize k)%Z.
Proof.
  unfold setsize. case_decide; [|done].
  pose proof (Z.pow_nonneg 4 (ceil_log4 (k * 3)) ltac:(lia)). lia.
Qed.

(** The sizes up to which [random.sample] uses the pool loop, at the
    batch sizes of the two files and below. *)
Lemma setsize_values :
  setsize 5 = 21%Z ∧ setsize 6 = 85%Z ∧
  setsize 256 = 1045%Z ∧ setsize 512 = 4117%Z.
Proof. repeat split; vm_compute; reflexivity. Qed.

Lemma draws_cons n x r :
  draws n (x :: r) = N.to_nat (x `mod` N.of_nat n) :: draws n r.
Proof. done. Qed.

(** The rejection loop returns a position that was not selected. *)
Lemma draw_unselected_sound fuel n sel r j r1 :
  (0 < n)%nat → draw_unselected fuel n sel r = Some (j, r1) →
  (j ∉ sel) ∧ (j < n)%nat.
Proof.
  intros Hn. revert r. induction fuel as [|fuel IH]; intros r Hd; [done|].
  cbn [draw_unselected] in Hd.
  pose proof (randbelow_lt n r Hn) as Hlt.
  destruct (randbelow n r) as [j' r']. simpl in Hlt.
  case_decide as Hsel; [by eapply IH|].
  by injection Hd as <- <-.
Qed.

(** It ends as soon as the sequence holds a position that is not
    selected, having skipped selected positions only. *)
Lemma draw_unselected_found n sel r d :
  d ∈ draws n r → d ∉ sel →
  ∃ skipped j r1,
    draw_unselected (S (length r)) n sel r = Some (j, r1) ∧
    draws n r = skipped ++ j :: draws n r1 ∧
    Forall (λ x, x ∈ sel) skipped ∧ j ∉ sel.
Proof.
  induction r as [|x r IH]; intros Hd Hsel.
  { by apply elem_of_nil in Hd. }
  cbn [length draw_unselected]. unfold randbelow. cbn [getrand].
  rewrite draws_cons in Hd |- *.
  set (j := N.to_nat (x `mod` N.of_nat n)) in *.
  case_decide as Hj.
  - apply elem_of_cons in Hd as [->|Hd]; [done|].
    destruct (IH Hd Hsel) as (skipped & j' & r1 & Hrun & Hdr & Hsk & Hj').
    exists (j :: skipped), j', r1. split; [done|].
    split; [by rewrite Hdr|]. split; [by constructor|done].
  - exists [], j, r. by repeat split.
Qed.

(** The loop on a population and on its positions: the same generator
    state selects the items at the selected positions, which are
    distinct and were not selected before; or both never return. *)
Lemma sample_set_positions {A} (n k : nat) (population : list A) sel r :
  (0 < n)%nat → (n ≤ length population)%nat →
  match sample_set n k (seq 0 n) sel r with
  | Ok (ps, r') =>
      length ps = k ∧ NoDup ps ∧ Forall (λ p, (p ∉ sel) ∧ (p < n)%nat) ps ∧
      ∃ res, sample_set n k population sel r = Ok (res, r') ∧
             Forall2 (λ p x, population !! p = Some x) ps res
  | Raise e => e = Hangs ∧ sample_set n k population sel r = Raise Hangs
  end.
Proof.
  intros Hn Hlen. revert sel r. induction k as [|k IH]; intros sel r.
  { simpl. split; [done|]. split; [constructor|]. split; [constructor|].
    exists []. split; [done|constructor]. }
  cbn [sample_set].
  destruct (draw_unselected (S (length r)) n sel r) as [[j r1]|] eqn:Hd;
    [|done].
  destruct (draw_unselected_sound _ _ _ _ _ _ Hn Hd) as [Hj Hjn].
  unfold getitem. rewrite lookup_seq_lt by done.
  destruct (lookup_lt_is_Some_2 population j ltac:(lia)) as [x Hx].
  rewrite Hx. cbn [mbind result_bind]. specialize (IH (j :: sel) r1).
  destruct (sample_set n k (seq 0 n) (j :: sel) r1) as [[ps r2]|e].
  - destruct IH as (Hl & Hnd & Hall & res & -> & Hres).
    cbn [mbind result_bind]. split; [simpl; by rewrite Hl|]. split.
    { apply NoDup_cons. split; [|done]. intros Hin.
      rewrite Forall_forall in Hall. destruct (Hall j Hin) as [Hnot _].
      apply Hnot. by left. }
    split.
    { constructor; [done|]. eapply Forall_impl; [exact Hall|].
      intros p [Hp ?]. split; [|done]. intros Hin. apply Hp. by right. }
    exists (x :: res). split; [done|]. by constructor.
  - destruct IH as [-> ->]. done.
Qed.

(** Every ordered selection of distinct positions not yet selected is
    drawn by the generator state that answers them in turn. *)
Lemma sample_set_complete (n : nat) (ps sel : list nat) :
  NoDup ps → Forall (λ p, (p ∉ sel) ∧ (p < n)%nat) ps →
  sample_set n (length ps) (seq 0 n) sel (N.of_nat <$> ps) = Ok (ps, []).
Proof.
  revert sel. induction ps as [|p ps IH]; intros sel Hnd Hall; [done|].
  apply NoDup_cons in Hnd as [Hp Hnd].
  apply Forall_cons in Hall as [[Hsel Hlt] Hall].
  cbn [length fmap list_fmap sample_set draw_unselected].
  unfold randbelow. cbn [getrand].
  rewrite N.mod_small by lia. rewrite Nat2N.id.
  rewrite decide_False by done.
  unfold getitem. rewrite lookup_seq_lt by done. cbn [mbind result_bind].
  rewrite IH; [done|done|].
  rewrite Forall_forall in Hall |- *. intros q Hq.
  destruct (Hall q Hq) as [Hqs Hqn]. split; [|done].
  intros [->|Hin]%elem_of_cons; done.
Qed.

Lemma filter_ne_notin (j : nat) (ds : list nat) :
  j ∉ ds → filter (λ d, d ≠ j) ds = ds.
Proof.
  induction ds as [|d ds IH]; intros Hj; [done|].
  apply not_elem_of_cons in Hj as [Hne Hj].
  rewrite filter_cons_True by done. by rewrite IH.
Qed.

Lemma filter_ne_length (j : nat) (ds : list nat) :
  NoDup ds → (length ds ≤ S (length (filter (λ d, d ≠ j) ds)))%nat.
Proof.
  induction ds as [|d ds IH]; intros Hnd; [simpl; lia|].
  apply NoDup_cons in Hnd as [Hd Hnd]. specialize (IH Hnd).
  destruct (decide (d = j)) as [->|Hne].
  - rewrite filter_cons_False by (intros Hc; by apply Hc).
    rewrite filter_ne_notin by done. simpl. lia.
  - rewrite filter_cons_True by done. simpl. lia.
Qed.

(** Enough raw outputs give a result: when the sequence holds [k]
    distinct positions that are not selected, the loop returns. *)
Lemma sample_set_returns (n k : nat) (sel : list nat) r ds :
  (0 < n)%nat → NoDup ds → (k ≤ length ds)%nat → ds ⊆ draws n r →
  (∀ d, d ∈ ds → d ∉ sel) →
  ∃ ps r', sample_set n k (seq 0 n) sel r = Ok (ps, r').
Proof.
  intros Hn. revert sel r ds.
  induction k as [|k IH]; intros sel r ds Hnd Hk Hsub Hsel.
  { by eexists _, _. }
  destruct ds as [|d0 ds0] eqn:Hds; [simpl in Hk; lia|]. rewrite <- Hds in *.
  assert (d0 ∈ ds) as Hd0 by (rewrite Hds; by left).
  destruct (draw_unselected_found n sel r d0 (Hsub _ Hd0) (Hsel _ Hd0))
    as (skipped & j & r1 & Hrun & Hdr & Hsk & Hj).
  destruct (draw_unselected_sound _ _ _ _ _ _ Hn Hrun) as [_ Hjn].
  cbn [sample_set]. rewrite Hrun.
  unfold getitem. rewrite lookup_seq_lt by done. cbn [mbind result_bind].
  destruct (IH (j :: sel) r1 (filter (λ d, d ≠ j) ds))
    as (ps & r' & ->).
  - by apply NoDup_filter.
  - pose proof (filter_ne_length j ds Hnd). lia.
  - intros d [Hne Hd]%list_elem_of_filter.
    pose proof (Hsub d Hd) as Hin. rewrite Hdr in Hin.
    apply elem_of_app in Hin as [Hin|Hin].
    + rewrite Forall_forall in Hsk. exfalso. by apply (Hsel d Hd), Hsk.
    + apply elem_of_cons in Hin as [->|Hin]; done.
  - intros d [Hne Hd]%list_elem_of_filter [->|Hin]%elem_of_cons; [done|].
    by apply (Hsel d Hd).
  - by eexists _, _.
Qed.

(** [random.sample] on a population and on its positions. *)
Lemma random_sample_positions {A} (population : list A) (k : Z) r :
  (0 ≤ k ≤ Z.of_nat (length population))%Z →
  let n := length population in
  match sample_positions n k r with
  | Ok (ps, r') =>
      length ps = Z.to_nat k ∧ NoDup ps ∧
      ∃ res, random_sample population k r = Ok (res, r') ∧
             Forall2 (λ p x, population !! p = Some x) ps res
  | Raise e =>
      e = Hangs ∧ (setsize k < Z.of_nat n)%Z ∧
      random_sample population k r = Raise Hangs
  end.
Proof.
  intros Hk. cbv zeta. unfold sample_positions, random_sample.
  rewrite length_seq. rewrite !decide_True by done.
  destruct (decide (Z.of_nat (length population) ≤ setsize k)%Z) as [Hs|Hs].
  - destruct (sample_pool_positions population (Z.to_nat k) r ltac:(lia))
      as (ps & res & r' & Hps & Hres & Hlen & Hnd & Hall). unfold range.
    rewrite Hps, Hres. split; [done|]. split; [done|]. exists res.
    by rewrite decide_True.
  - pose proof (setsize_ge k).
    pose proof (sample_set_positions (length population) (Z.to_nat k)
                  population [] r ltac:(lia) ltac:(lia)) as Hset.
    destruct (sample_set _ _ (seq 0 _) [] r) as [[ps r']|e].
    + destruct Hset as (Hlen & Hnd & _ & res & Hres & Hall).
      split; [done|]. split; [done|]. exists res. by rewrite decide_True.
    + destruct Hset as [-> Hres]. split; [done|]. split; [lia|].
      by rewrite decide_True.
Qed.

(** ** Sampling a batch *)

Lemma vstack_same (rows : list Tensor) :
  rows ≠ [] →
  (∀ r r', r ∈ rows → r' ∈ rows → length r = length r') →
  vstack rows = Ok rows.
Proof.
  intros Hne Hsame. unfold vstack. destruct rows as [|r0 rows]; [done|].
  rewrite decide_True; [done|].
  apply Forall_forall. intros r' Hr'. apply Hsame; [done|by left].
Qed.

Lemma ReplayBuffer_sample_Ok (b : ReplayBuffer.t) r es r' :
  random_sample (items (ReplayBuffer.memory b)) (ReplayBuffer.batch_size b) r
    = Ok (es, r') →
  es ≠ [] → same_dims es →
  ReplayBuffer.sample b r = Ok (collate es, r').
Proof.
  intros Hr Hne Hd. unfold ReplayBuffer.sample. rewrite Hr. simpl.
  assert (∀ {B} (f : Experience → B), f <$> es ≠ []) as Hne'.
  { intros B f Hf. apply fmap_nil_inv in Hf. done. }
  rewrite !vstack_same; try done.
  - simpl. destruct es; done.
  - intros ? ? (e1 & -> & H1)%list_elem_of_fmap (e2 & -> & H2)%list_elem_of_fmap.
    by apply Hd.
  - intros ? ? (e1 & -> & H1)%list_elem_of_fmap (e2 & -> & H2)%list_elem_of_fmap.
    by apply Hd.
  - intros ? ? (e1 & -> & H1)%list_elem_of_fmap (e2 & -> & H2)%list_elem_of_fmap.
    by apply Hd.
Qed.

(** C6.  For a buffer whose transitions have uniform dimensions and a
    batch size [k] with [1 <= k <= size], [sample] either returns five
    sequences, each of length [k] and aligned (entry [i] of each comes
    from one transition), taken at the [k] distinct positions of the
    current contents that [random.sample] selects, or never returns;
    the buffer is only read.  It returns whenever the size is at most
    the library's [setsize], and whenever the generator's outputs still
    to come hold [k] distinct positions.  With [k > size] or [k <= 0]
    the call raises [ValueError].  Every ordered choice of [k] distinct
    positions is drawn by some generator state; for a size of at most
    [setsize], two runs that draw the same positions made the same
    [randbelow] choices. *)
Theorem C6_sample (b : ReplayBuffer.t) (r : Rng) :
  let contents := items (ReplayBuffer.memory b) in
  let n := length contents in
  let k := ReplayBuffer.batch_size b in
  ((1 ≤ k ≤ ReplayBuffer.len b)%Z → same_dims contents →
   match sample_positions n k r with
   | Ok (ps, r') =>
       length ps = Z.to_nat k ∧ NoDup ps ∧
       ∃ es,
         length es = Z.to_nat k ∧
         Forall2 (λ p e, contents !! p = Some e) ps es ∧
         ReplayBuffer.sample b r =
           Ok ((state <$> es, action <$> es, reward <$> es,
                next_state <$> es, (λ e, uint8 (done e)) <$> es), r')
   | Raise e =>
       e = Hangs ∧ (setsize k < Z.of_nat n)%Z ∧
       ReplayBuffer.sample b r = Raise Hangs
   end) ∧
  ((0 ≤ k ≤ ReplayBuffer.len b)%Z →
   (Z.of_nat n ≤ setsize k)%Z ∨
   (∃ ds, NoDup ds ∧ length ds = Z.to_nat k ∧ ds ⊆ draws n r) →
   ∃ ps r', sample_positions n k r = Ok (ps, r')) ∧
  ((ReplayBuffer.len b < k)%Z → ReplayBuffer.sample b r = Raise ValueError) ∧
  ((k ≤ 0)%Z → ReplayBuffer.sample b r = Raise ValueError) ∧
  ((0 ≤ k ≤ ReplayBuffer.len b)%Z →
   ∀ ps, NoDup ps → length ps = Z.to_nat k → Forall (λ p, p < n)%nat ps →
     ∃ r0 r', sample_positions n k r0 = Ok (ps, r')) ∧
  ((0 ≤ k ≤ ReplayBuffer.len b)%Z → (Z.of_nat n ≤ setsize k)%Z →
   ∀ r1 r2 ps r1' r2',
     sample_positions n k r1 = Ok (ps, r1') →
     sample_positions n k r2 = Ok (ps, r2') →
     sample_choices n (range k) r1 = sample_choices n (range k) r2).
Proof.
  cbv zeta. unfold ReplayBuffer.len, deque_len.
  set (contents := items (ReplayBuffer.memory b)).
  set (k := ReplayBuffer.batch_size b).
  split; [|split; [|split; [|split; [|split]]]].
  - intros Hk Hd.
    pose proof (random_sample_positions contents k r ltac:(lia)) as Hpos.
    cbv zeta in Hpos.
    destruct (sample_positions (length contents) k r) as [[ps r']|e].
    + destruct Hpos as (Hlen & Hnd & es & Hs & Hall).
      pose proof (Forall2_length _ _ _ Hall) as Hl.
      split; [done|]. split; [done|]. exists es.
      split; [lia|]. split; [done|].
      apply ReplayBuffer_sample_Ok; [done| |].
      * intros ->. simpl in Hl. lia.
      * intros e e' He He'. apply Hd.
        -- apply list_elem_of_lookup in He as [i Hi].
           destruct (Forall2_lookup_r _ _ _ _ _ Hall Hi) as (p & _ & Hp).
           by eapply list_elem_of_lookup_2.
        -- apply list_elem_of_lookup in He' as [i Hi].
           destruct (Forall2_lookup_r _ _ _ _ _ Hall Hi) as (p & _ & Hp).
           by eapply list_elem_of_lookup_2.
    + destruct Hpos as (-> & Hn & Hs). split; [done|]. split; [done|].
      unfold ReplayBuffer.sample. fold contents k. by rewrite Hs.
  - intros Hk Hsuff. unfold sample_positions, random_sample.
    rewrite length_seq. rewrite decide_True by lia.
    destruct (decide (Z.of_nat (length contents) ≤ setsize k)%Z) as [Hs|Hs].
    { destruct (sample_pool _ _ _ r) as [ps r']. by exists ps, r'. }
    destruct Hsuff as [Hs'|(ds & Hnd & Hlen & Hsub)]; [done|].
    pose proof (setsize_ge k).
    apply (sample_set_returns _ _ _ _ ds); try done; try lia.
    intros d _ Hin. by apply elem_of_nil in Hin.
  - intros Hk. unfold ReplayBuffer.sample, random_sample.
    fold contents k. rewrite decide_False by lia. done.
  - intros Hk. unfold ReplayBuffer.sample, random_sample.
    fold contents k. case_decide as Hd; [|done].
    assert (k = 0%Z) as Hk0 by lia. rewrite Hk0. by case_decide.
  - intros Hk ps Hnd Hlen Hlt.
    destruct (decide (Z.of_nat (length contents) ≤ setsize k)%Z) as [Hs|Hs].
    + destruct (sample_pool_complete (length contents) (Z.to_nat k) 0
                  (seq 0 (length contents)) ps) as [r0 Hr0];
        try done; try lia.
      * by rewrite length_seq.
      * rewrite Nat.sub_0_r, take_ge by (rewrite length_seq; lia).
        apply NoDup_seq.
      * rewrite Nat.sub_0_r, take_ge by (rewrite length_seq; lia).
        intros p Hp. apply elem_of_seq.
        rewrite Forall_forall in Hlt. specialize (Hlt p Hp). lia.
      * destruct (sample_pool (length contents) (seq 0 (Z.to_nat k))
                    (seq 0 (length contents)) r0) as [ps' r'] eqn:Hp.
        simpl in Hr0. subst ps'. exists r0, r'.
        unfold sample_positions, random_sample.
        rewrite length_seq, !decide_True by lia. unfold range. by rewrite Hp.
    + exists (N.of_nat <$> ps), [].
      unfold sample_positions, random_sample.
      rewrite length_seq, decide_True, decide_False by lia.
      rewrite <- Hlen. apply sample_set_complete; [done|].
      eapply Forall_impl; [exact Hlt|]. intros p Hp. split; [|done].
      intros Hin. by apply elem_of_nil in Hin.
  - intros Hk Hs r1 r2 ps r1' r2'. unfold sample_positions, random_sample.
    rewrite length_seq. rewrite !decide_True by lia.
    intros [= H1] [= H2]. unfold range in *.
    apply (sample_pool_choices (length contents) (Z.to_nat k) 0
             (seq 0 (length contents))); try done; try lia.
    + by rewrite length_seq.
    + rewrite Nat.sub_0_r, take_ge by (rewrite length_seq; lia).
      apply NoDup_seq.
    + by rewrite H1, H2.
Qed.

(** C6, counterexample: with a batch size of zero, which is
    not more than the size of the buffer, [sample] raises instead of
    returning five empty sequences. *)
Lemma C6_counterexample :
  (ReplayBuffer.batch_size ex_buffer_batch0
     ≤ ReplayBuffer.len ex_buffer_batch0)%Z ∧
  ReplayBuffer.sample ex_buffer_batch0 ex_rng = Raise ValueError.
Proof. split; [by_compute|reflexivity]. Qed.

(** ** The theorems at concrete inputs *)

Lemma same_dims_Forall (es : list Experience) :
  Forall (λ e, Forall (λ e',
    length (state e) = length (state e') ∧
    length (action e) = length (action e') ∧
    length (next_state e) = length (next_state e')) es) es →
  same_dims es.
Proof.
  intros Hall e e' He He'. rewrite Forall_forall in Hall.
  specialize (Hall e He). rewrite Forall_forall in Hall. by apply Hall.
Qed.

Lemma C5_witness :
  ReplayBuffer.len ex_buffer = 2%Z ∧
  items (ReplayBuffer.memory ex_buffer) = [ex_e 2 true; ex_e 3 false].
Proof.
  destruct (C5_replay_buffer_fifo 1 2 2 1 (ex_empty_buffer 2 2) eq_refl)
    as [HU _].
  destruct (HU [ex_e 1 false; ex_e 2 true; ex_e 3 false]) as [_ Hk].
  apply (Hk 1%nat); [lia|reflexivity].
Defined.

Lemma C8_witness :
  (∃ xi r' n',
     random_vector 2 ex_rng = (xi, r') ∧
     OUNoise.sample ex_noise ex_rng = Ok (OUNoise.state n', n', r') ∧
     ∀ j x m u,
       OUNoise.state ex_noise !! j = Some x →
       OUNoise.mu ex_noise !! j = Some m →
       xi !! j = Some u →
       OUNoise.state n' !! j =
         Some (x + OUNoise.theta ex_noise * (m - x)
               + OUNoise.sigma ex_noise * u)) ∧
  (∃ r', OUNoise_samples 3 (OUNoise.reset ex_noise_still) ex_rng =
           Ok (replicate 3 (OUNoise.mu ex_noise_still),
               OUNoise.reset ex_noise_still, r')).
Proof.
  split.
  - destruct (C8_ou_noise ex_noise) as (_ & _ & Hs & _).
    destruct (Hs ex_rng eq_refl)
      as (xi & r' & n' & Hxi & _ & _ & Hsample & _ & _ & _ & _ & Hall).
    by exists xi, r', n'.
  - destruct (C8_ou_noise ex_noise_still) as (_ & _ & _ & Hfix).
    destruct (Hfix eq_refl eq_refl 3%nat ex_rng) as (r' & Hr' & _).
    by exists r'.
Defined.

Lemma C1_witness :
  ∃ (Q_targets : list float) (r' : Rng),
    ReplayBuffer.sample ex_buffer ex_rng = Ok (ex_batch, r') ∧
    Q_targets_of (H := toy) ex_models ex_batch GAMMA ex_heap
      = Ok Q_targets ∧
    Q_targets = [Fin (Q2Qc 2); Fin (Q2Qc (597 # 100))].
Proof.
  assert (ReplayBuffer.sample ex_buffer ex_rng
          = Ok (ex_batch, [2 ^ 51; 7; 11; 2 ^ 52]%N)) as Hs
    by (vm_compute; reflexivity).
  destruct (C1_td_target (H := toy) ex_models ex_heap GAMMA ex_buffer ex_rng
              _ ex_batch Hs) as (es & Q & _ & HQ & _).
  exists Q. eexists. split; [exact Hs|]. split; [exact HQ|].
  assert (Q_targets_of (H := toy) ex_models ex_batch GAMMA ex_heap
          = Ok [Fin (Q2Qc 2); Fin (Q2Qc (597 # 100))]) as HQ'
    by (vm_compute; reflexivity).
  rewrite HQ' in HQ. by injection HQ as <-.
Defined.

(** C1, counterexample: the target of a terminal transition of reward
    two is a NaN, not the reward, when the target critic's value is an
    infinity, and when its product with [gamma] overflows (a critic
    value of [3e38] and a [gamma] of two). *)
Lemma C1_counterexample :
  td_target [Q2Qc 2] GAMMA [Inf false] [uint8 true] = Ok [NaN] ∧
  Q_targets_of (H := toy) ex_models ex_batch (Q2Qc 2) ex_heap_large
    = Ok [NaN; Inf false] ∧
  ex_batch = collate [ex_e 2 true; ex_e 3 false] ∧
  fl (reward (ex_e 2 true)) = Fin (Q2Qc 2).
Proof.
  split; [vm_compute; reflexivity|]. split; [vm_compute; reflexivity|].
  split; [reflexivity|]. vm_compute. reflexivity.
Qed.

Lemma C6_witness :
  (∃ es r',
     length es = 2%nat ∧
     ReplayBuffer.sample ex_buffer ex_rng = Ok (collate es, r')) ∧
  (∃ es,
     sample_positions 22 2 [9; 9; 18]%N = Ok ([9; 18]%nat, []) ∧
     ReplayBuffer.sample ex_buffer22 [9; 9; 18]%N = Ok (collate es, []) ∧
     reward <$> es = [Q2Qc 9; Q2Qc 18]).
Proof.
  split.
  - pose proof (proj1 (C6_sample ex_buffer ex_rng)) as Hthm.
    cbv zeta in Hthm.
    specialize (Hthm ltac:(by_compute)
                  ltac:(apply same_dims_Forall; by_compute)).
    assert (length (items (ReplayBuffer.memory ex_buffer)) = 2%nat) as Hn
      by (vm_compute; reflexivity).
    assert (ReplayBuffer.batch_size ex_buffer = 2%Z) as Hk
      by (vm_compute; reflexivity).
    assert (sample_positions 2 2 ex_rng
            = Ok ([0; 1]%nat, [2 ^ 51; 7; 11; 2 ^ 52]%N)) as Hp
      by (vm_compute; reflexivity).
    rewrite Hn, Hk, Hp in Hthm.
    destruct Hthm as (_ & _ & es & Hlen & _ & Hs). by eexists es, _.
  - pose proof (proj1 (C6_sample ex_buffer22 [9; 9; 18]%N)) as Hthm.
    cbv zeta in Hthm.
    specialize (Hthm ltac:(by_compute)
                  ltac:(apply same_dims_Forall; by_compute)).
    assert (length (items (ReplayBuffer.memory ex_buffer22)) = 22%nat) as Hn
      by (vm_compute; reflexivity).
    assert (ReplayBuffer.batch_size ex_buffer22 = 2%Z) as Hk
      by (vm_compute; reflexivity).
    assert (sample_positions 22 2 [9; 9; 18]%N = Ok ([9; 18]%nat, []))
      as Hp by (vm_compute; reflexivity).
    rewrite Hn, Hk, Hp in Hthm.
    destruct Hthm as (_ & _ & es & Hlen & Hall & Hs).
    exists es. split; [done|]. split; [done|].
    destruct es as [|e1 [|e2 [|? ?]]];
      try (exfalso; clear -Hlen; simpl in Hlen; lia).
    apply Forall2_cons in Hall as [H1 Hall].
    apply Forall2_cons in Hall as [H2 _].
    vm_compute in H1, H2. injection H1 as <-. injection H2 as <-.
    by_compute.
Defined.

(** ** The parameter store: what each operation writes *)

Section Store.
Context `{External}.
Implicit Types (h : Heap) (p q : nat) (net : Net).

Lemma alter_data (f : Param → Param) h p q :
  (∀ c, data (f c) = data c) →
  data <$> alter f p h !! q = data <$> h !! q.
Proof.
  intros Hf. destruct (decide (p = q)) as [->|Hne].
  - rewrite list_lookup_alter_eq. destruct (h !! q); simpl; [|done].
    by rewrite Hf.
  - by rewrite list_lookup_alter_ne.
Qed.

Lemma zero_grad_data opt h q :
  data <$> zero_grad opt h !! q = data <$> h !! q.
Proof.
  unfold zero_grad. generalize (opt_params opt) as ps. intros ps. revert h.
  induction ps as [|p ps IH]; intros h; simpl; [done|].
  rewrite IH. by apply alter_data.
Qed.

Lemma accumulate_data net grads h q :
  data <$> accumulate net grads h !! q = data <$> h !! q.
Proof.
  unfold accumulate. generalize (zip net grads) as pgs. intros pgs. revert h.
  induction pgs as [|[p g] pgs IH]; intros h; simpl; [done|].
  rewrite IH. by apply alter_data.
Qed.

Lemma adam_steps_other lr wd ps sts h q :
  q ∉ ps → (adam_steps lr wd ps sts h).2 !! q = h !! q.
Proof.
  revert sts h. induction ps as [|p ps IH]; intros sts h Hq; [done|].
  apply not_elem_of_cons in Hq as [Hne Hq]. simpl.
  destruct sts as [|st sts]; [done|].
  destruct (h !! p) as [[d [g|]]|] eqn:Hp.
  - destruct (adam_update lr wd st d g) as [d' st'].
    specialize (IH sts (<[p := mk_param d' (Some g)]> h) Hq).
    destruct (adam_steps lr wd ps sts _) as [sts'' h'']. simpl in *.
    rewrite IH. by apply list_lookup_insert_ne.
  - specialize (IH sts h Hq).
    destruct (adam_steps lr wd ps sts h) as [sts'' h'']. done.
  - specialize (IH sts h Hq).
    destruct (adam_steps lr wd ps sts h) as [sts'' h'']. done.
Qed.

Lemma step_optimizer_other opt h q :
  q ∉ opt_params opt → (step_optimizer opt h).2 !! q = h !! q.
Proof.
  intros Hq. unfold step_optimizer.
  pose proof (adam_steps_other (opt_lr opt) (opt_weight_decay opt)
                (opt_params opt) (opt_state opt) h q Hq) as Hs.
  by destruct (adam_steps _ _ _ _ h).
Qed.

Lemma step_optimizer_params opt h :
  opt_params (step_optimizer opt h).1 = opt_params opt.
Proof. unfold step_optimizer. by destruct (adam_steps _ _ _ _ h). Qed.

(** The actor update writes the value of no parameter outside
    actor_local, and changes no network. *)
Lemma update_actor_frame (m : Models) (experiences : Batch) h q :
  opt_params (actor_optimizer m) = actor_local m →
  q ∉ actor_local m →
  data <$> (update_actor m experiences h).2 !! q = data <$> h !! q.
Proof.
  intros Hopt Hq. unfold update_actor.
  destruct experiences as [[[[states actions] rewards] next_states] dones].
  destruct (actor_loss_backward _ _ _) as [g_actor g_critic].
  set (h3 := accumulate (critic_local m) g_critic _).
  pose proof (step_optimizer_other (actor_optimizer m) h3 q) as Hs.
  rewrite Hopt in Hs. specialize (Hs Hq).
  destruct (step_optimizer (actor_optimizer m) h3) as [opt h4]. simpl in *.
  rewrite Hs. unfold h3.
  by rewrite !accumulate_data, zero_grad_data.
Qed.

Lemma update_actor_nets (m : Models) (experiences : Batch) h :
  let m' := (update_actor m experiences h).1 in
  actor_local m' = actor_local m ∧ actor_target m' = actor_target m ∧
  critic_local m' = critic_local m ∧ critic_target m' = critic_target m ∧
  opt_params (actor_optimizer m') = opt_params (actor_optimizer m) ∧
  critic_optimizer m' = critic_optimizer m.
Proof.
  cbv zeta. unfold update_actor.
  destruct experiences as [[[[states actions] rewards] next_states] dones].
  destruct (actor_loss_backward _ _ _) as [g_actor g_critic].
  set (h3 := accumulate (critic_local m) g_critic _).
  pose proof (step_optimizer_params (actor_optimizer m) h3) as Hp.
  destruct (step_optimizer (actor_optimizer m) h3) as [opt h4]. done.
Qed.

Lemma values_ext h h' net :
  (∀ p, p ∈ net → data <$> h' !! p = data <$> h !! p) →
  values h' net = values h net.
Proof.
  intros Hext. unfold values. induction net as [|p net IH]; [done|].
  cbn [omap list_omap]. rewrite Hext by by left.
  fold (omap (λ p, data <$> h' !! p) net).
  fold (omap (λ p, data <$> h !! p) net).
  rewrite IH; [done|]. intros q Hq. apply Hext. by right.
Qed.

(** The critic update changes no network and keeps the parameters each
    optimizer holds. *)
Lemma update_critic_nets (m : Models) (experiences : Batch) gamma h m1 h1 :
  update_critic m experiences gamma h = Ok (m1, h1) →
  actor_local m1 = actor_local m ∧ actor_target m1 = actor_target m ∧
  critic_local m1 = critic_local m ∧ critic_target m1 = critic_target m ∧
  actor_optimizer m1 = actor_optimizer m ∧
  opt_params (critic_optimizer m1) = opt_params (critic_optimizer m).
Proof.
  unfold update_critic.
  destruct experiences as [[[[states actions] rewards] next_states] dones].
  intros Hrun. apply bind_Ok in Hrun as (Q_targets & _ & Hrun).
  apply bind_Ok in Hrun as (? & _ & Hrun).
  destruct (critic_loss_backward _ _ _ _ _) as [[g_local g_target] g_actor].
  set (h4 := accumulate (actor_target m) g_actor _) in Hrun.
  pose proof (step_optimizer_params (critic_optimizer m) h4) as Hp.
  destruct (step_optimizer (critic_optimizer m) h4) as [opt h5].
  injection Hrun as <- <-. done.
Qed.

(** A loop over zipped parameters whose body writes its target only
    leaves every other object as it was. *)
Lemma write_loop_frame (body : nat * nat → Heap → result Heap) :
  (∀ t l h h1 p, body (t, l) h = Ok h1 → p ≠ t → h1 !! p = h !! p) →
  ∀ target local h h',
    for_each (zip target local) body h = Ok h' →
    ∀ p, p ∉ target → h' !! p = h !! p.
Proof.
  intros Hbody target.
  induction target as [|t target IH]; intros [|l local] h h' Hrun p Hp;
    simpl in Hrun; try (by injection Hrun as <-).
  apply bind_Ok in Hrun as (h1 & Hstep & Hrun).
  apply not_elem_of_cons in Hp as [Hpt Hp].
  rewrite (IH _ _ _ Hrun p Hp). by eapply Hbody.
Qed.

(** [soft_update] writes target parameters only. *)
Lemma soft_update_frame local target tau h h' p :
  soft_update local target tau h = Ok h' → p ∉ target → h' !! p = h !! p.
Proof.
  unfold soft_update. intros Hrun. revert p.
  eapply write_loop_frame; [|exact Hrun].
  clear. intros t l h h1 p Hrun Hp. cbv beta iota in Hrun. inv_Ok Hrun.
  subst h1. by apply list_lookup_insert_ne.
Qed.

Lemma update_targets_frame (m : Models) h h' p :
  update_targets m h = Ok h' →
  p ∉ critic_target m → p ∉ actor_target m → h' !! p = h !! p.
Proof.
  unfold update_targets. intros Hrun Hc Ha.
  apply bind_Ok in Hrun as (h1 & H1 & H2).
  rewrite (soft_update_frame _ _ _ _ _ _ H2 Ha).
  by apply (soft_update_frame _ _ _ _ _ _ H1).
Qed.

(** The well-formedness both constructors establish is kept by a
    learning phase. *)
Lemma learn_models_wf (m : Models) (experiences : Batch) gamma h m' h' :
  learn_models m experiences gamma h = Ok (m', h') →
  models_wf m → models_wf m'.
Proof.
  unfold learn_models. intros Hrun (Hnd & Ha & Hc).
  apply bind_Ok in Hrun as ([m1 h1] & Hcrit & Hrun).
  apply update_critic_nets in Hcrit as (E1 & E2 & E3 & E4 & E5 & E6).
  pose proof (update_actor_nets m1 experiences h1) as Hact. cbv zeta in Hact.
  destruct (update_actor m1 experiences h1) as [m2 h2]. simpl in Hact.
  destruct Hact as (F1 & F2 & F3 & F4 & F5 & F6).
  apply bind_Ok in Hrun as (h3 & _ & Hrun). injection Hrun as <- <-.
  unfold models_wf. rewrite F1, F2, F3, F4, F5, F6, E1, E2, E3, E4, E5, E6.
  done.
Qed.

End Store.

(** C9. In a learning phase, the actor update (between the critic update
    and the soft updates of the targets) changes the value of no
    critic-local parameter.  The actor update on any store: every
    parameter outside actor_local keeps its value, and the networks stay
    the same.  In a learning phase that returns: the phase is the critic
    update, then the actor update on the store the critic update left,
    then the soft updates; the critic-local values after the actor
    update, and at the end of the phase, are those the critic update
    left. *)
Theorem C9_actor_update_frame `{External} (m : Models) (experiences : Batch)
    (gamma : Qc) (h : Heap) :
  models_wf m →
  (let '(m', h') := update_actor m experiences h in
   (∀ p, p ∈ critic_local m → data <$> h' !! p = data <$> h !! p) ∧
   values h' (critic_local m) = values h (critic_local m) ∧
   (∀ p, p ∉ actor_local m → data <$> h' !! p = data <$> h !! p) ∧
   critic_local m' = critic_local m ∧
   actor_local m' = actor_local m) ∧
  (∀ m' h',
     learn_models m experiences gamma h = Ok (m', h') →
     ∃ m1 h1 h2,
       update_critic m experiences gamma h = Ok (m1, h1) ∧
       update_actor m1 experiences h1 = (m', h2) ∧
       update_targets m' h2 = Ok h' ∧
       critic_local m' = critic_local m ∧
       values h2 (critic_local m) = values h1 (critic_local m) ∧
       values h' (critic_local m) = values h1 (critic_local m)).
Proof.
  intros (Hnd & Hopt & Hoptc).
  assert (∀ p, p ∈ critic_local m → p ∉ actor_local m) as Hdisj.
  { intros p Hc Ha. apply NoDup_app in Hnd as (_ & Hnd & _).
    apply (Hnd p Ha). rewrite !elem_of_app. auto. }
  assert (∀ p, p ∈ critic_local m →
               (p ∉ critic_target m) ∧ (p ∉ actor_target m)) as Hdisj'.
  { intros p Hc. apply NoDup_app in Hnd as (_ & _ & Hnd).
    apply NoDup_app in Hnd as (_ & Hnd1 & Hnd).
    apply NoDup_app in Hnd as (_ & Hnd2 & _).
    split; [intros Ht; by apply (Hnd2 p Hc)|].
    intros Ht. apply (Hnd1 p Ht). rewrite elem_of_app. auto. }
  split.
  - pose proof (update_actor_frame m experiences h) as Hframe.
    pose proof (update_actor_nets m experiences h) as Hnets.
    cbv zeta in Hnets.
    destruct (update_actor m experiences h) as [m' h']. simpl in *.
    destruct Hnets as (Hal & _ & Hcl & _).
    split; [|split; [|split]].
    + intros p Hp. apply Hframe; [done|]. by apply Hdisj.
    + apply values_ext. intros p Hp. apply Hframe; [done|]. by apply Hdisj.
    + intros p Hp. by apply Hframe.
    + done.
  - intros m' h' Hrun. unfold learn_models in Hrun.
    apply bind_Ok in Hrun as ([m1 h1] & Hcrit & Hrun).
    pose proof (update_critic_nets _ _ _ _ _ _ Hcrit)
      as (E1 & E2 & E3 & E4 & E5 & E6).
    pose proof (update_actor_frame m1 experiences h1) as Hframe.
    pose proof (update_actor_nets m1 experiences h1) as Hnets.
    cbv zeta in Hnets.
    destruct (update_actor m1 experiences h1) as [m2 h2] eqn:Hact.
    simpl in *. destruct Hnets as (F1 & F2 & F3 & F4 & _).
    apply bind_Ok in Hrun as (h3 & Htargets & Hrun).
    injection Hrun as <- <-.
    exists m1, h1, h2. split; [done|]. split; [done|]. split; [done|].
    split; [congruence|].
    assert (values h2 (critic_local m) = values h1 (critic_local m)) as Hv.
    { apply values_ext. intros p Hp. apply Hframe.
      - rewrite E5, E1. done.
      - rewrite E1. by apply Hdisj. }
    split; [done|]. rewrite <- Hv.
    apply values_ext. intros p Hp. f_equal.
    destruct (Hdisj' p Hp) as [Hct Hat].
    apply (update_targets_frame m2 h2 h3 p Htargets); congruence.
Qed.

(** ** Copying and blending parameters *)

Section Copy.
Context `{External}.
Implicit Types (h : Heap) (p q : nat) (net : Net).

Lemma torch_copy_same (dst src : Tensor) :
  length src = length dst → torch_copy_ dst src = Ok src.
Proof.
  intros Hl. unfold torch_copy_, inplace. rewrite decide_True by done.
  f_equal. revert dst Hl.
  induction src as [|s src IH]; intros [|d dst] Hl; simpl in *; try done.
  f_equal. apply IH. lia.
Qed.

(** A loop over the zipped parameters that writes, into each target,
    a value [F local target] of the target's shape. *)
Lemma copy_loop (F : Tensor → Tensor → Tensor)
    (body : nat * nat → Heap → result Heap) :
  (∀ t l h tc lc,
     h !! t = Some tc → h !! l = Some lc →
     length (data tc) = length (data lc) →
     body (t, l) h = Ok (<[t := mk_param (F (data lc) (data tc)) (grad tc)]> h)) →
  ∀ target local h,
    NoDup target → (∀ p, p ∈ target → p ∉ local) →
    Forall2 (paired h) target local →
    ∃ h',
      for_each (zip target local) body h = Ok h' ∧
      length h' = length h ∧
      (∀ p, p ∉ target → h' !! p = h !! p) ∧
      Forall2 (λ t l, ∃ tc lc,
                 h !! t = Some tc ∧ h !! l = Some lc ∧
                 h' !! t = Some (mk_param (F (data lc) (data tc)) (grad tc)))
        target local.
Proof.
  intros Hbody target.
  induction target as [|t target IH]; intros local h Hnd Hdisj Hall.
  { apply Forall2_nil_inv_l in Hall as ->.
    exists h. by repeat split. }
  apply Forall2_cons_inv_l in Hall
    as (l & local' & (tc & lc & Ht & Hl & Hlen) & Hall & ->).
  rename local' into local.
  apply NoDup_cons in Hnd as [Htn Hnd]. simpl.
  rewrite (Hbody t l h tc lc Ht Hl Hlen). simpl.
  set (h1 := <[t := _]> h).
  assert (t ≠ l) as Htl.
  { intros ->. apply (Hdisj l); by left. }
  assert (∀ p, p ≠ t → h1 !! p = h !! p) as Hh1.
  { intros p Hp. unfold h1. by apply list_lookup_insert_ne. }
  destruct (IH local h1) as (h' & Hrun & Hlen' & Hother & Hpairs).
  - done.
  - intros p Hp Hin. apply (Hdisj p); by right.
  - apply Forall2_same_length_lookup. split; [by eapply Forall2_length|].
    intros i t' l' Hti Hli.
    destruct (Forall2_lookup_lr _ _ _ _ _ _ Hall Hti Hli)
      as (tc' & lc' & Ht' & Hl' & Hlen').
    exists tc', lc'. rewrite !Hh1; [done| |].
    + intros ->. apply (Hdisj t); [by left|].
      right. by eapply list_elem_of_lookup_2.
    + intros ->. apply Htn. by eapply list_elem_of_lookup_2.
  - exists h'. split; [done|]. split.
    { rewrite Hlen'. unfold h1. by rewrite length_insert. }
    split.
    { intros p Hp. apply not_elem_of_cons in Hp as [Hpt Hp].
      rewrite Hother by done. by apply Hh1. }
    constructor.
    + exists tc, lc. split; [done|]. split; [done|].
      rewrite Hother by done. unfold h1.
      apply list_lookup_insert_eq. by eapply lookup_lt_Some.
    + apply Forall2_same_length_lookup. split; [by eapply Forall2_length|].
      intros i t' l' Hti Hli.
      destruct (Forall2_lookup_lr _ _ _ _ _ _ Hpairs Hti Hli)
        as (tc' & lc' & Ht' & Hl' & Hnew).
      exists tc', lc'. rewrite <- !Hh1; [done| |].
      * intros ->. apply (Hdisj t); [by left|].
        right. by eapply list_elem_of_lookup_2.
      * intros ->. apply Htn. by eapply list_elem_of_lookup_2.
Qed.

End Copy.

Section Updates.
Context `{External}.
Implicit Types (h : Heap) (p q : nat) (net : Net).

Lemma getparam_Some h p c : h !! p = Some c → getparam h p = Ok c.
Proof. intros Hp. unfold getparam. by rewrite Hp. Qed.

Lemma blend_length tau (l t : Tensor) :
  length t = length l → length (blend tau l t) = length t.
Proof.
  intros Hl. unfold blend, scale. rewrite length_zip_with, !length_fmap. lia.
Qed.

Lemma blend_lookup tau (l t : Tensor) i x y :
  l !! i = Some x → t !! i = Some y →
  blend tau l t !! i = Some (tau * x + (1 - tau) * y).
Proof.
  intros Hx Hy. unfold blend, scale.
  by rewrite lookup_zip_with, !list_lookup_fmap, Hx, Hy.
Qed.

Lemma blend_1 (l t : Tensor) : length t = length l → blend 1 l t = l.
Proof.
  unfold blend, scale. revert t.
  induction l as [|x l IH]; intros [|y t] Hl; simpl in *; try done.
  f_equal; [ring|]. apply IH. lia.
Qed.

Lemma blend_0 (l t : Tensor) : length t = length l → blend 0 l t = t.
Proof.
  unfold blend, scale. revert t.
  induction l as [|x l IH]; intros [|y t] Hl; simpl in *; try done.
  f_equal; [ring|]. apply IH. lia.
Qed.

(** What a loop of writes [F local target] leaves in the targets. *)
Lemma values_written (F : Tensor → Tensor → Tensor) h h' target local :
  Forall2 (λ t l, ∃ tc lc,
             h !! t = Some tc ∧ h !! l = Some lc ∧
             h' !! t = Some (mk_param (F (data lc) (data tc)) (grad tc)))
    target local →
  values h' target = zip_with F (values h local) (values h target) ∧
  length (values h local) = length local ∧
  length (values h target) = length target.
Proof.
  unfold values. induction 1 as [|t l target local (tc & lc & Ht & Hl & Hn) _ IH].
  { done. }
  destruct IH as (IH1 & IH2 & IH3).
  cbn [omap list_omap]. rewrite Hn, Hl, Ht. simpl.
  fold (omap (λ p, data <$> h' !! p) target).
  fold (omap (λ p, data <$> h !! p) target).
  fold (omap (λ p, data <$> h !! p) local).
  rewrite IH1, IH2, IH3. done.
Qed.

Lemma soft_update_body tau tp lp h tc lc :
  h !! tp = Some tc → h !! lp = Some lc →
  length (data tc) = length (data lc) →
  (t ← getparam h tp;
   l ← getparam h lp;
   v ← torch_op Qcplus (scale tau (data l)) (scale (1 - tau) (data t));
   d ← torch_copy_ (data t) v;
   Ok (<[tp := mk_param d (grad t)]> h) : result Heap)
  = Ok (<[tp := mk_param (blend tau (data lc) (data tc)) (grad tc)]> h).
Proof.
  intros Ht Hl Hlen. rewrite (getparam_Some _ _ _ Ht). simpl.
  rewrite (getparam_Some _ _ _ Hl). simpl.
  rewrite torch_op_same by (unfold scale; rewrite !length_fmap; lia). simpl.
  fold (blend tau (data lc) (data tc)).
  rewrite torch_copy_same by (by apply blend_length). done.
Qed.

(** [soft_update] on two networks with distinct parameters of the same
    shapes: every target tensor becomes
    [tau * local + (1 - tau) * target], nothing else is written. *)
Lemma soft_update_spec local target tau h :
  NoDup target → (∀ p, p ∈ target → p ∉ local) →
  Forall2 (paired h) target local →
  ∃ h',
    soft_update local target tau h = Ok h' ∧
    length h' = length h ∧
    (∀ p, p ∉ target → h' !! p = h !! p) ∧
    values h' target = zip_with (blend tau) (values h local) (values h target) ∧
    length (values h local) = length local ∧
    length (values h target) = length target.
Proof.
  intros Hnd Hdisj Hall. unfold soft_update.
  destruct (copy_loop (blend tau)
              (λ '(target_param, local_param) h,
                 t ← getparam h target_param;
                 l ← getparam h local_param;
                 v ← torch_op Qcplus (scale tau (data l))
                       (scale (1 - tau) (data t));
                 d ← torch_copy_ (data t) v;
                 Ok (<[target_param := mk_param d (grad t)]> h))
              ltac:(intros; by apply soft_update_body)
              target local h Hnd Hdisj Hall)
    as (h' & Hrun & Hlen & Hother & Hpairs).
  exists h'. split; [done|]. split; [done|]. split; [done|].
  by apply values_written.
Qed.

Lemma hard_update_body tp lp h tc lc :
  h !! tp = Some tc → h !! lp = Some lc →
  length (data tc) = length (data lc) →
  (t ← getparam h tp;
   l ← getparam h lp;
   d ← torch_copy_ (data t) (data l);
   Ok (<[tp := mk_param d (grad t)]> h) : result Heap)
  = Ok (<[tp := mk_param ((λ l _, l) (data lc) (data tc)) (grad tc)]> h).
Proof.
  intros Ht Hl Hlen. rewrite (getparam_Some _ _ _ Ht). simpl.
  rewrite (getparam_Some _ _ _ Hl). simpl.
  by rewrite torch_copy_same.
Qed.

Lemma zip_with_fst {A B} (l : list A) (k : list B) :
  length l = length k → zip_with (λ x _, x) l k = l.
Proof.
  revert k. induction l as [|x l IH]; intros [|y k] Hl; simpl in *; try done.
  f_equal. apply IH. lia.
Qed.

(** [hard_update] on two networks with distinct parameters of the same
    shapes: the targets get the values of the locals, nothing else is
    written. *)
Lemma hard_update_spec target local h :
  NoDup target → (∀ p, p ∈ target → p ∉ local) →
  Forall2 (paired h) target local →
  ∃ h',
    hard_update target local h = Ok h' ∧
    length h' = length h ∧
    (∀ p, p ∉ target → h' !! p = h !! p) ∧
    values h' target = values h local.
Proof.
  intros Hnd Hdisj Hall. unfold hard_update.
  destruct (copy_loop (λ l _, l)
              (λ '(target_param, local_param) h,
                 t ← getparam h target_param;
                 l ← getparam h local_param;
                 d ← torch_copy_ (data t) (data l);
                 Ok (<[target_param := mk_param d (grad t)]> h))
              ltac:(intros; by apply hard_update_body)
              target local h Hnd Hdisj Hall)
    as (h' & Hrun & Hlen & Hother & Hpairs).
  exists h'. split; [done|]. split; [done|]. split; [done|].
  apply (values_written (λ l _, l)) in Hpairs as (Hv & Hl & Ht).
  rewrite Hv. apply zip_with_fst. pose proof (Forall2_length _ _ _ Hall). lia.
Qed.

End Updates.

(** ** Construction *)

Section Construction.
Context `{External}.
Implicit Types (h : Heap) (p q : nat) (net : Net) (ws : list Tensor).

Lemma fresh_length ws : length (fresh ws) = length ws.
Proof. apply length_fmap. Qed.

Lemma values_alloc (pre post : Heap) ws :
  values (pre ++ fresh ws ++ post) (seq (length pre) (length ws)) = ws.
Proof.
  unfold values. revert pre. induction ws as [|w ws IH]; intros pre; [done|].
  cbn [length seq omap list_omap fresh fmap list_fmap app].
  rewrite list_lookup_middle by done. simpl. f_equal.
  specialize (IH (pre ++ [mk_param w None])).
  rewrite length_app, <- app_assoc in IH. simpl in IH.
  replace (length pre + 1)%nat with (S (length pre)) in IH by lia.
  exact IH.
Qed.

Lemma values_length h net : (length (values h net) ≤ length net)%nat.
Proof.
  unfold values. induction net as [|q net IH]; [done|].
  cbn [omap list_omap]. fold (omap (λ p, data <$> h !! p) net).
  destruct (data <$> h !! q); simpl; lia.
Qed.

Lemma values_lookup h net ws i p :
  values h net = ws → length ws = length net → net !! i = Some p →
  ∃ c, h !! p = Some c ∧ ws !! i = Some (data c).
Proof.
  unfold values. intros <-. revert i.
  induction net as [|q net IH]; intros i Hlen Hi; [done|].
  cbn [omap list_omap] in *.
  fold (omap (λ p, data <$> h !! p) net) in *.
  pose proof (values_length h net) as Hle. unfold values in Hle.
  destruct (h !! q) as [c|] eqn:Hq; simpl in *; [|lia].
  destruct i as [|i]; simpl in *.
  - injection Hi as <-. by exists c.
  - apply IH; [lia|done].
Qed.

Lemma values_paired h target local wt wl :
  values h target = wt → length wt = length target →
  values h local = wl → length wl = length local →
  length <$> wt = length <$> wl →
  Forall2 (paired h) target local.
Proof.
  intros Ht Hlt Hl Hll Hshape.
  assert (length target = length local) as Hlen.
  { apply (f_equal length) in Hshape. rewrite !length_fmap in Hshape. lia. }
  apply Forall2_same_length_lookup. split; [done|].
  intros i t l Hti Hli.
  destruct (values_lookup _ _ _ _ _ Ht Hlt Hti) as (tc & Htc & Hwt).
  destruct (values_lookup _ _ _ _ _ Hl Hll Hli) as (lc & Hlc & Hwl).
  exists tc, lc. split; [done|]. split; [done|].
  apply (f_equal (λ l, l !! i)) in Hshape.
  rewrite !list_lookup_fmap, Hwt, Hwl in Hshape. simpl in Hshape. congruence.
Qed.

(** The layout of the four networks [__init__] builds one after the
    other. *)
Lemma alloc_layout h0 (wa wa' wc wc' : list Tensor) :
  let h4 := h0 ++ fresh wa ++ fresh wa' ++ fresh wc ++ fresh wc' in
  let al := seq (length h0) (length wa) in
  let at_ := seq (length h0 + length wa) (length wa') in
  let cl := seq (length h0 + length wa + length wa') (length wc) in
  let ct :=
    seq (length h0 + length wa + length wa' + length wc) (length wc') in
  NoDup (al ++ at_ ++ cl ++ ct) ∧
  values h4 al = wa ∧ values h4 at_ = wa' ∧
  values h4 cl = wc ∧ values h4 ct = wc'.
Proof.
  cbv zeta. split; [|split; [|split; [|split]]].
  - rewrite <- !seq_app. apply NoDup_seq.
  - apply values_alloc.
  - pose proof (values_alloc (h0 ++ fresh wa) (fresh wc ++ fresh wc') wa')
      as Hv.
    rewrite length_app, fresh_length, <- !app_assoc in Hv. exact Hv.
  - pose proof (values_alloc (h0 ++ fresh wa ++ fresh wa') (fresh wc') wc)
      as Hv.
    rewrite !length_app, !fresh_length, <- !app_assoc in Hv.
    rewrite Nat.add_assoc in Hv. exact Hv.
  - pose proof (values_alloc (h0 ++ fresh wa ++ fresh wa' ++ fresh wc) []
                  wc') as Hv.
    rewrite !length_app, !fresh_length, <- !app_assoc, app_nil_r in Hv.
    rewrite !Nat.add_assoc in Hv. exact Hv.
Qed.

End Construction.

Section OriginalInit.
Context `{External}.

(** [ddpg_agent.py]: construction always succeeds, lays out four
    networks with distinct parameters, copies every local value into
    its target, and stores the hyperparameters as given. *)
Lemma Original_init_spec (num_agents : Z) (state_size action_size : nat)
    (random_seed : Z)
    (gamma tau lr_actor lr_critic weight_decay mu theta sigma : Qc)
    (learn_rate time_update : Z) (eps_max eps_min eps_decay : Qc)
    (w : World) :
  ∃ ag w',
    Original.init num_agents state_size action_size random_seed gamma tau
      lr_actor lr_critic weight_decay mu theta sigma learn_rate time_update
      eps_max eps_min eps_decay w = Ok (ag, w') ∧
    models_wf (Original.models ag) ∧
    let m := Original.models ag in
    values (heap w') (actor_target m) = values (heap w') (actor_local m) ∧
    values (heap w') (critic_target m) = values (heap w') (critic_local m) ∧
    length (values (heap w') (actor_local m)) = length (actor_local m) ∧
    length (values (heap w') (critic_local m)) = length (critic_local m) ∧
    length (actor_target m) = length (actor_local m) ∧
    length (critic_target m) = length (critic_local m) ∧
    Original.gamma ag = gamma ∧ Original.tau ag = tau.
Proof.
  unfold Original.init.
  pose proof (Actor_new_shape state_size action_size random_seed (gen w))
    as Hsa.
  destruct (Actor_new state_size action_size random_seed (gen w))
    as [wa g1] eqn:Ea.
  specialize (Hsa g1).
  destruct (Actor_new state_size action_size random_seed g1) as [wa' g2].
  pose proof (Critic_new_shape state_size action_size random_seed g2) as Hsc.
  destruct (Critic_new state_size action_size random_seed g2)
    as [wc g3] eqn:Ec.
  specialize (Hsc g3).
  destruct (Critic_new state_size action_size random_seed g3) as [wc' g4].
  simpl in Hsa, Hsc. unfold alloc. cbn [fst snd].
  fold (fresh wa) (fresh wa') (fresh wc) (fresh wc').
  rewrite !length_app, !fresh_length, <- !app_assoc.
  unfold ReplayBuffer.init, deque_new.
  rewrite decide_False by (unfold BUFFER_SIZE; lia). cbn [mbind result_bind].
  destruct (alloc_layout (heap w) wa wa' wc wc')
    as (Hnd & Hva & Hva' & Hvc & Hvc').
  set (h4 := heap w ++ fresh wa ++ fresh wa' ++ fresh wc ++ fresh wc') in *.
  set (al := seq (length (heap w)) (length wa)) in *.
  set (at_ := seq (length (heap w) + length wa) (length wa')) in *.
  set (cl := seq (length (heap w) + length wa + length wa') (length wc)) in *.
  set (ct := seq (length (heap w) + length wa + length wa' + length wc)
               (length wc')) in *.
  assert (length al = length wa ∧ length at_ = length wa' ∧
          length cl = length wc ∧ length ct = length wc')
    as (Hlal & Hlat & Hlcl & Hlct) by (unfold al, at_, cl, ct;
                                        by rewrite !length_seq).
  assert (length wa' = length wa ∧ length wc' = length wc) as [Hla Hlc].
  { apply (f_equal length) in Hsa, Hsc. rewrite !length_fmap in Hsa, Hsc.
    lia. }
  pose proof Hnd as Hnd0.
  apply NoDup_app in Hnd as (Hnal & Hd1 & Hnd).
  apply NoDup_app in Hnd as (Hnat & Hd2 & Hnd).
  apply NoDup_app in Hnd as (Hncl & Hd3 & Hnct).
  destruct (hard_update_spec at_ al h4) as (h5 & -> & Hl5 & Ho5 & Hv5).
  { done. }
  { intros p Hp Hp'. apply (Hd1 p Hp'). rewrite elem_of_app. by left. }
  { apply (values_paired h4 at_ al wa' wa); try done; lia. }
  cbn [mbind result_bind].
  assert (∀ net, (∀ p, p ∈ net → p ∉ at_) → values h5 net = values h4 net)
    as Hk5.
  { intros net Hnet. apply values_ext. intros p Hp.
    by rewrite Ho5 by by apply Hnet. }
  assert (∀ p, p ∈ cl → p ∉ at_) as Hcl_at.
  { intros p Hp Hp'. apply (Hd2 p Hp'). rewrite elem_of_app. by left. }
  assert (∀ p, p ∈ ct → p ∉ at_) as Hct_at.
  { intros p Hp Hp'. apply (Hd2 p Hp'). rewrite elem_of_app. by right. }
  assert (∀ p, p ∈ al → p ∉ at_) as Hal_at.
  { intros p Hp Hp'. apply (Hd1 p Hp). rewrite elem_of_app. by left. }
  destruct (hard_update_spec ct cl h5) as (h6 & -> & Hl6 & Ho6 & Hv6).
  { done. }
  { intros p Hp Hp'. by apply (Hd3 p Hp'). }
  { apply (values_paired h5 ct cl wc' wc); try done; try lia.
    - by rewrite Hk5.
    - by rewrite Hk5. }
  cbn [mbind result_bind].
  assert (∀ net, (∀ p, p ∈ net → p ∉ ct) → values h6 net = values h5 net)
    as Hk6.
  { intros net Hnet. apply values_ext. intros p Hp.
    by rewrite Ho6 by by apply Hnet. }
  assert (∀ p, p ∈ cl → p ∉ ct) as Hcl_ct.
  { intros p Hp Hp'. by apply (Hd3 p Hp). }
  assert (∀ p, p ∈ al → p ∉ ct) as Hal_ct.
  { intros p Hp Hp'. apply (Hd1 p Hp). rewrite !elem_of_app. auto. }
  assert (∀ p, p ∈ at_ → p ∉ ct) as Hat_ct.
  { intros p Hp Hp'. apply (Hd2 p Hp). rewrite !elem_of_app. auto. }
  eexists _, _. split; [reflexivity|]. cbn [Original.models heap
    actor_local actor_target critic_local critic_target
    Original.gamma Original.tau].
  split.
  { unfold models_wf. cbn. split; [exact Hnd0|]. done. }
  cbv zeta. cbn [actor_local actor_target critic_local critic_target].
  rewrite !(Hk6 at_), !(Hk6 al), !(Hk6 cl) by done.
  rewrite Hv6, Hv5, !(Hk5 al), !(Hk5 cl) by done.
  rewrite Hva, Hvc. repeat split; try done; lia.
Qed.

End OriginalInit.

Section UpdatedInit.
Context `{External}.

(** [ddpg_agent_updated.py]: construction fails exactly for a negative
    buffer size (the [deque] refuses it); otherwise it lays out the four
    networks, leaves each with the values its own constructor call drew,
    and stores the hyperparameters as given. *)
Lemma Updated_init_spec (num_agents : Z) (state_size action_size : nat)
    (random_seed : Z)
    (gamma tau lr_actor lr_critic weight_decay mu theta sigma : Qc)
    (learn_rate time_update batch_size buffer_size : Z) (w : World) :
  let run :=
    Updated.init num_agents state_size action_size random_seed gamma tau
      lr_actor lr_critic weight_decay mu theta sigma learn_rate time_update
      batch_size buffer_size w in
  ((buffer_size < 0)%Z → run = Raise ValueError) ∧
  ((0 ≤ buffer_size)%Z →
   ∃ ag w',
     run = Ok (ag, w') ∧
     models_wf (Updated.models ag) ∧
     let m := Updated.models ag in
     let '(wa, g1) :=
       Actor_new state_size action_size random_seed (gen w) in
     let '(wa', g2) := Actor_new state_size action_size random_seed g1 in
     let '(wc, g3) := Critic_new state_size action_size random_seed g2 in
     let '(wc', g4) := Critic_new state_size action_size random_seed g3 in
     values (heap w') (actor_local m) = wa ∧
     values (heap w') (actor_target m) = wa' ∧
     values (heap w') (critic_local m) = wc ∧
     values (heap w') (critic_target m) = wc' ∧
     Updated.gamma ag = gamma ∧ Updated.tau ag = tau ∧
     Updated.batch_size ag = batch_size ∧
     Updated.buffer_size ag = buffer_size ∧
     ReplayBuffer.batch_size (Updated.memory ag) = batch_size ∧
     maxlen (ReplayBuffer.memory (Updated.memory ag)) = buffer_size).
Proof.
  cbv zeta. unfold Updated.init.
  destruct (Actor_new state_size action_size random_seed (gen w))
    as [wa g1].
  destruct (Actor_new state_size action_size random_seed g1) as [wa' g2].
  destruct (Critic_new state_size action_size random_seed g2) as [wc g3].
  destruct (Critic_new state_size action_size random_seed g3) as [wc' g4].
  unfold alloc. cbn [fst snd].
  fold (fresh wa) (fresh wa') (fresh wc) (fresh wc').
  rewrite !length_app, !fresh_length, <- !app_assoc.
  unfold ReplayBuffer.init, deque_new.
  destruct (alloc_layout (heap w) wa wa' wc wc')
    as (Hnd & Hva & Hva' & Hvc & Hvc').
  split.
  - intros Hb. by rewrite decide_True by done.
  - intros Hb. rewrite decide_False by lia. cbn [mbind result_bind].
    eexists _, _. split; [reflexivity|]. split.
    { unfold models_wf. cbn. split; [exact Hnd|]. done. }
    cbn [Updated.models heap actor_local actor_target critic_local
         critic_target Updated.gamma Updated.tau Updated.batch_size
         Updated.buffer_size Updated.memory ReplayBuffer.batch_size
         ReplayBuffer.memory maxlen].
    by rewrite Hva, Hva', Hvc, Hvc'.
Qed.

End UpdatedInit.

(** C4.  In [ddpg_agent_updated.py] construction does not copy the local
    parameters into the targets.  Whatever the network classes are,
    every network is left with the values its own constructor call
    returned: the second [Actor(...)] call for actor_target, the second
    [Critic(...)] call for critic_target.  Built over networks whose
    constructor draws fresh weights at each call, the agent starts with
    an actor_target and a critic_target that differ from the local
    networks. *)
Theorem C4_updated_init_no_copy :
  (∀ (E : External) (num_agents : Z) (state_size action_size : nat)
     (random_seed : Z)
     (gamma tau lr_actor lr_critic weight_decay mu theta sigma : Qc)
     (learn_rate time_update batch_size : Z) (capacity : nat) (w : World),
     ∃ ag w',
       Updated.init num_agents state_size action_size random_seed gamma tau
         lr_actor lr_critic weight_decay mu theta sigma learn_rate
         time_update batch_size (Z.of_nat capacity) w = Ok (ag, w') ∧
       let m := Updated.models ag in
       let built1 := Actor_new state_size action_size random_seed (gen w) in
       let built2 := Actor_new state_size action_size random_seed built1.2 in
       let built3 := Critic_new state_size action_size random_seed built2.2 in
       let built4 := Critic_new state_size action_size random_seed built3.2 in
       values (heap w') (actor_local m) = built1.1 ∧
       values (heap w') (actor_target m) = built2.1 ∧
       values (heap w') (critic_local m) = built3.1 ∧
       values (heap w') (critic_target m) = built4.1) ∧
  (∃ ag w',
     Updated.init (H := toy) 2 3 2 7 GAMMA TAU LR_ACTOR LR_CRITIC 0 0
       (Q2Qc (15 # 100)) (Q2Qc (2 # 10)) 10 10 256 100000
       (mk_world (H := toy) [] [] 0%nat) = Ok (ag, w') ∧
     values (heap w') (actor_local (Updated.models ag)) = [[0; 0]] ∧
     values (heap w') (actor_target (Updated.models ag)) = [[1; 1]] ∧
     values (heap w') (critic_target (Updated.models ag))
       ≠ values (heap w') (critic_local (Updated.models ag))).
Proof.
  split.
  - intros E num_agents state_size action_size random_seed gamma tau lr_actor
      lr_critic weight_decay mu theta sigma learn_rate time_update batch_size
      capacity w.
    destruct (Updated_init_spec num_agents state_size action_size
                random_seed gamma tau lr_actor lr_critic weight_decay mu
                theta sigma learn_rate time_update batch_size
                (Z.of_nat capacity) w) as (_ & Hok).
    destruct (Hok ltac:(lia)) as (ag & w' & Hrun & _ & Hrest).
    cbv zeta in Hrest. exists ag, w'. split; [done|]. cbv zeta.
    destruct (Actor_new state_size action_size random_seed (gen w))
      as [wa g1].
    cbn [fst snd].
    destruct (Actor_new state_size action_size random_seed g1) as [wa' g2].
    cbn [fst snd].
    destruct (Critic_new state_size action_size random_seed g2) as [wc g3].
    cbn [fst snd].
    destruct (Critic_new state_size action_size random_seed g3) as [wc' g4].
    cbn [fst snd].
    destruct Hrest as (Ha & Ha' & Hc & Hc' & _). done.
  - eexists _, _. split; [reflexivity|].
    split; [by_compute|]. split; by_compute.
Qed.

(** ** [step]: the cadence of learning *)

Lemma for_each_const {X S} (xs : list X) (f : S → result S) (s : S) :
  for_each xs (λ _, f) s = repeat_m (length xs) f s.
Proof.
  revert s. induction xs as [|x xs IH]; intros s; [done|]. simpl.
  destruct (f s) as [s'|e]; simpl; [apply IH|done].
Qed.

Lemma range_length n : length (range n) = Z.to_nat n.
Proof. unfold range. by rewrite length_seq. Qed.

(** With a positive divisor, Python's [a % b > 0] fails exactly when
    [a % b == 0]. *)
Lemma cadence (t u : Z) : (0 < u)%Z → ¬ (t `mod` u > 0)%Z ↔ (t `mod` u = 0)%Z.
Proof. intros Hu. pose proof (Z.mod_pos_bound t u Hu). lia. Qed.

Section Step.
Context `{External}.

Lemma Original_learn_memory experiences g self w self' w' :
  Original.learn experiences g self w = Ok (self', w') →
  Original.memory self' = Original.memory self ∧
  Original.gamma self' = Original.gamma self ∧
  Original.time_update self' = Original.time_update self ∧
  Original.learning_rate self' = Original.learning_rate self ∧
  rng w' = rng w.
Proof.
  unfold Original.learn. intros Hl. inv_Ok Hl. destruct x as [m h].
  injection Hl as <- <-. done.
Qed.

Lemma Updated_learn_memory experiences g self w self' w' :
  Updated.learn experiences g self w = Ok (self', w') →
  Updated.memory self' = Updated.memory self ∧
  Updated.gamma self' = Updated.gamma self ∧
  Updated.time_update self' = Updated.time_update self ∧
  Updated.learning_rate self' = Updated.learning_rate self ∧
  Updated.batch_size self' = Updated.batch_size self ∧
  rng w' = rng w.
Proof.
  unfold Updated.learn. intros Hl. inv_Ok Hl. destruct x as [m h].
  injection Hl as <- <-. done.
Qed.

End Step.

(** C2.  For a positive [time_update]: [step] first writes
    the transitions into the buffer; then, if and only if
    [time_step mod time_update = 0] and the buffer now holds strictly
    more than the batch size, it runs [learning_rate] learning phases
    in a row, each of which draws a fresh batch from the buffer (with
    the generator state the previous phase left) and leaves the buffer
    as written; otherwise it returns with only the buffer changed. *)
Theorem C2_step_cadence `{External} (time_step : Z)
    (states actions : list Tensor) (rewards : list Qc)
    (next_states : list Tensor) (dones : list bool) (w : World) :
  (∀ self : Original.Agent,
     (0 < Original.time_update self)%Z →
     Original.step time_step states actions rewards next_states dones self w =
       mem ← Original.add (Original.memory self) states actions rewards
                next_states dones;
       let self1 := Original.set_memory self mem in
       if decide ((time_step `mod` Original.time_update self = 0)%Z ∧
                  (ReplayBuffer.len mem > Original.BATCH_SIZE)%Z)
       then repeat_m (Z.to_nat (Original.learning_rate self)) Original_phase
              (self1, w)
       else Ok (self1, w)) ∧
  (∀ self : Updated.Agent,
     (0 < Updated.time_update self)%Z →
     Updated.step time_step states actions rewards next_states dones self w =
       mem ← Updated_write (Updated.memory self) (Updated.num_agents self)
                states actions rewards next_states dones;
       let self1 := Updated.set_memory self mem in
       if decide ((time_step `mod` Updated.time_update self = 0)%Z ∧
                  (ReplayBuffer.len mem > Updated.batch_size self)%Z)
       then repeat_m (Z.to_nat (Updated.learning_rate self)) Updated_phase
              (self1, w)
       else Ok (self1, w)) ∧
  (∀ self w0 self' w',
     Original_phase (self, w0) = Ok (self', w') →
     Original.memory self' = Original.memory self ∧
     ∃ experiences r,
       ReplayBuffer.sample (Original.memory self) (rng w0)
         = Ok (experiences, r) ∧
       rng w' = r ∧
       Original.learn experiences (Original.gamma self) self (set_rng w0 r)
         = Ok (self', w')) ∧
  (∀ self w0 self' w',
     Updated_phase (self, w0) = Ok (self', w') →
     Updated.memory self' = Updated.memory self ∧
     ∃ experiences r,
       ReplayBuffer.sample (Updated.memory self) (rng w0)
         = Ok (experiences, r) ∧
       rng w' = r ∧
       Updated.learn experiences (Updated.gamma self) self (set_rng w0 r)
         = Ok (self', w')).
Proof.
  split; [|split; [|split]].
  - intros self Hu. unfold Original.step.
    destruct (Original.add _ _ _ _ _ _) as [mem|e]; [|done].
    cbn [mbind result_bind]. cbv zeta.
    cbn [Original.time_update Original.set_memory Original.memory
         Original.learning_rate].
    rewrite decide_False by lia.
    pose proof (cadence time_step _ Hu) as Hc.
    destruct (decide (time_step `mod` Original.time_update self > 0)%Z)
      as [Hpos|Hpos].
    { rewrite decide_False; [done|]. intros [Hz _]. lia. }
    destruct (decide (ReplayBuffer.len mem > Original.BATCH_SIZE)%Z)
      as [Hlen|Hlen].
    + rewrite decide_True by (split; [by apply Hc|done]).
      rewrite <- range_length. rewrite <- for_each_const.
      unfold Original_phase. apply (f_equal (λ f, for_each _ f _)).
      done.
    + rewrite decide_False; [done|]. by intros [_ ?].
  - intros self Hu. unfold Updated.step, Updated_write.
    destruct (for_each _ _ _) as [mem|e]; [|done].
    cbn [mbind result_bind]. cbv zeta.
    cbn [Updated.time_update Updated.set_memory Updated.memory
         Updated.learning_rate Updated.batch_size].
    rewrite decide_False by lia.
    pose proof (cadence time_step _ Hu) as Hc.
    destruct (decide (time_step `mod` Updated.time_update self > 0)%Z)
      as [Hpos|Hpos].
    { rewrite decide_False; [done|]. intros [Hz _]. lia. }
    destruct (decide (ReplayBuffer.len mem > Updated.batch_size self)%Z)
      as [Hlen|Hlen].
    + rewrite decide_True by (split; [by apply Hc|done]).
      rewrite <- range_length. rewrite <- for_each_const.
      unfold Updated_phase. apply (f_equal (λ f, for_each _ f _)).
      done.
    + rewrite decide_False; [done|]. by intros [_ ?].
  - intros self w0 self' w' Hp. unfold Original_phase in Hp. inv_Ok Hp.
    destruct x as [experiences r].
    pose proof (Original_learn_memory _ _ _ _ _ _ Hp) as (Hm & _ & _ & _ & Hr).
    split; [done|]. exists experiences, r. by repeat split.
  - intros self w0 self' w' Hp. unfold Updated_phase in Hp. inv_Ok Hp.
    destruct x as [experiences r].
    pose proof (Updated_learn_memory _ _ _ _ _ _ Hp)
      as (Hm & _ & _ & _ & _ & Hr).
    split; [done|]. exists experiences, r. by repeat split.
Qed.

(** ** [act]: the clamp *)

Lemma clip1_range (a : Qc) : in_action_space (clip1 (-1) 1 a).
Proof.
  unfold clip1, in_action_space.
  assert (-1 ≤ 1) as H11 by by_compute.
  assert (¬ 1 < -1) as Hn11 by by_compute.
  destruct (decide (a < -1)) as [Hlo|Hlo].
  - rewrite decide_False by done. split; [apply Qcle_refl|done].
  - apply Qcnot_lt_le in Hlo.
    destruct (decide (1 < a)) as [Hhi|Hhi].
    + split; [done|apply Qcle_refl].
    + apply Qcnot_lt_le in Hhi. done.
Qed.

Lemma np_clip_range (a : list Tensor) :
  Forall (Forall in_action_space) (np_clip a (-1) 1).
Proof.
  unfold np_clip. apply Forall_fmap, Forall_forall. intros row _. simpl.
  apply Forall_fmap, Forall_forall. intros x _. apply clip1_range.
Qed.

Lemma np_clip_length (a : list Tensor) lo hi :
  length (np_clip a lo hi) = length a.
Proof. unfold np_clip. by rewrite length_fmap. Qed.

Lemma mapM_Ok {A B} (f : A → result B) (l : list A) (k : list B) :
  mapM f l = Ok k → Forall2 (λ x y, f x = Ok y) l k.
Proof.
  revert k. induction l as [|x l IH]; intros k Hm; simpl in Hm.
  - injection Hm as <-. constructor.
  - inv_Ok Hm. injection Hm as <-. constructor; [done|]. by apply IH.
Qed.

(** X3.  Whatever the state and the [add_noise] flag, every coordinate of
    the actions [act] returns lies in [[-1, 1]]: the clip is the last
    thing done, after any noise.  Without noise the result is the
    clipped actor output and neither the noise nor the generator is
    touched.  With noise, [ddpg_agent_updated.py] draws exactly one
    sample from its single noise process and adds that same sample to
    the row of every agent before clipping. *)
Theorem act_clamped `{External} (states : list Tensor) (w : World) :
  (∀ add_noise (self : Original.Agent) a self' w',
     Original.act states add_noise self w = Ok (a, self', w') →
     Forall (Forall in_action_space) a) ∧
  (∀ add_noise (self : Updated.Agent) a self' w',
     Updated.act states add_noise self w = Ok (a, self', w') →
     Forall (Forall in_action_space) a) ∧
  (∀ self : Original.Agent,
     Original.act states false self w =
       Ok (np_clip (Actor_forward eval
                      (values (heap w) (actor_local (Original.models self)))
                      states) (-1) 1,
           Original.set_noise self (Original.noise self),
           set_rng w (rng w))) ∧
  (∀ (self : Updated.Agent) a self' w',
     Updated.act states false self w = Ok (a, self', w') →
     ∃ raw,
       Updated_raw_actions states self w = Ok raw ∧
       a = np_clip raw (-1) 1 ∧
       Updated.noise self' = Updated.noise self ∧ rng w' = rng w) ∧
  (∀ (self : Updated.Agent) a self' w',
     Updated.act states true self w = Ok (a, self', w') →
     ∃ raw sample n' r' noisy,
       Updated_raw_actions states self w = Ok raw ∧
       OUNoise.sample (Updated.noise self) (rng w) = Ok (sample, n', r') ∧
       Updated.noise self' = n' ∧ rng w' = r' ∧
       Forall2 (λ row row', np_iop Qcplus row sample = Ok row') raw noisy ∧
       a = np_clip noisy (-1) 1).
Proof.
  split; [|split; [|split; [|split]]].
  - intros add_noise self a self' w' Hact. unfold Original.act in Hact.
    inv_Ok Hact. destruct x as [[action noise] r].
    injection Hact as <- _ _. apply np_clip_range.
  - intros add_noise self a self' w' Hact. unfold Updated.act in Hact.
    case_decide; [done|]. inv_Ok Hact. destruct x0 as [[action n] r].
    injection Hact as <- _ _. apply np_clip_range.
  - intros self. done.
  - intros self a self' w' Hact. unfold Updated.act in Hact.
    unfold Updated_raw_actions.
    case_decide; [done|]. inv_Ok Hact. destruct x0 as [[action n] r].
    injection Hx0 as <- <- <-. injection Hact as <- <- <-.
    exists x. by rewrite Hx.
  - intros self a self' w' Hact. unfold Updated.act in Hact.
    unfold Updated_raw_actions.
    case_decide; [done|]. inv_Ok Hact. destruct x0 as [[action n] r].
    inv_Ok Hx0. destruct x0 as [[sample n'] r'].
    inv_Ok Hx0. subst. injection Hact as <- <- <-.
    exists x, sample, n, r, action. rewrite Hx.
    repeat split; try done.
    by apply mapM_Ok.
Qed.

(** C7.  With two agents and noise, [ddpg_agent.py] adds the samples of
    both noise processes to the action of each agent, and
    [ddpg_agent_updated.py] adds one shared sample to both: in neither
    is an agent's action perturbed by the one draw of its own (the
    clamp to [[-1, 1]] holds all the same). *)
Theorem C7_noise_not_per_agent :
  (∃ ag w a ag' w' claimed,
     ex_original_run (Q2Qc (1 # 4)) = Ok (ag, w) ∧
     Original.act ex_states true ag (set_rng w ex_rng_halves) = Ok (a, ag', w') ∧
     Original_act_own_noise ex_states ag (set_rng w ex_rng_halves) = Ok claimed ∧
     a = [[Q2Qc (3 # 16)]; [Q2Qc (3 # 16)]] ∧
     claimed = [[Q2Qc (1 # 8)]; [Q2Qc (1 # 16)]] ∧
     a ≠ claimed) ∧
  (∃ ag w a ag' w' claimed,
     ex_updated_run (Q2Qc (1 # 4)) 1 1 = Ok (ag, w) ∧
     Updated.act ex_states true ag (set_rng w ex_rng_halves) = Ok (a, ag', w') ∧
     Updated_act_own_noise ex_states ag (set_rng w ex_rng_halves) = Ok claimed ∧
     a = [[Q2Qc (1 # 8)]; [Q2Qc (1 # 8)]] ∧
     claimed = [[Q2Qc (1 # 8)]; [Q2Qc (3 # 16)]] ∧
     a ≠ claimed).
Proof.
  split.
  - eexists _, _, _, _, _, _. split; [reflexivity|].
    split; [reflexivity|]. split; [reflexivity|].
    split; [by_compute|]. split; by_compute.
  - eexists _, _, _, _, _, _. split; [reflexivity|].
    split; [reflexivity|]. split; [reflexivity|].
    split; [by_compute|]. split; by_compute.
Qed.

Lemma act_clamped_witness :
  ∃ ag w a ag' w',
    ex_updated_run (Q2Qc 4) 1 1 = Ok (ag, w) ∧
    Updated.act ex_states true ag (set_rng w ex_rng) = Ok (a, ag', w') ∧
    a = [[1]; [1]] ∧
    Forall (Forall in_action_space) a.
Proof.
  eexists _, _, _, _, _. split; [reflexivity|].
  match goal with
  | |- Updated.act _ _ ?ag ?w = _ ∧ _ =>
      pose proof (proj1 (proj2 (act_clamped (H := toy) ex_states w))
                    true ag) as Hthm
  end.
  split; [reflexivity|]. split; [by_compute|].
  eapply Hthm. reflexivity.
Defined.

(** C2, counterexample.  With [time_update = -3] and
    [time_step = 1] the remainder [1 % -3] is [-2], not zero, yet it is
    not positive either: [step] goes on and runs a learning phase (the
    critic's parameters change). *)
Lemma C2_counterexample :
  ∃ ag w ag' w',
    ex_updated_run (Q2Qc (1 # 4)) (-3) 1 = Ok (ag, w) ∧
    (1 `mod` Updated.time_update ag = -2)%Z ∧
    Updated.step 1 ex_states ex_actions ex_rewards ex_states ex_dones ag w
      = Ok (ag', w') ∧
    values (heap w') (critic_local (Updated.models ag'))
      ≠ values (heap w) (critic_local (Updated.models ag)).
Proof.
  eexists _, _, _, _. split; [reflexivity|]. split; [reflexivity|].
  split; [reflexivity|]. by_compute.
Qed.

Lemma C2_witness :
  ∃ ag w,
    ex_updated_run (Q2Qc (1 # 4)) 2 1 = Ok (ag, w) ∧
    Updated.step 4 ex_states ex_actions ex_rewards ex_states ex_dones ag w =
      mem ← Updated_write (Updated.memory ag) (Updated.num_agents ag)
               ex_states ex_actions ex_rewards ex_states ex_dones;
      let self1 := Updated.set_memory ag mem in
      if decide ((4 `mod` Updated.time_update ag = 0)%Z ∧
                 (ReplayBuffer.len mem > Updated.batch_size ag)%Z)
      then repeat_m (Z.to_nat (Updated.learning_rate ag)) Updated_phase
             (self1, w)
      else Ok (self1, w).
Proof.
  eexists _, _. split; [reflexivity|].
  apply (proj1 (proj2 (C2_step_cadence (H := toy) 4 ex_states ex_actions
                         ex_rewards ex_states ex_dones _))).
  by_compute.
Defined.

Lemma C9_witness :
  models_wf (H := toy) ex_models ∧
  ∃ m' h',
    learn_models (H := toy) ex_models ex_batch GAMMA ex_heap = Ok (m', h') ∧
    ∃ m1 h1 h2,
      update_critic (H := toy) ex_models ex_batch GAMMA ex_heap = Ok (m1, h1) ∧
      update_actor (H := toy) m1 ex_batch h1 = (m', h2) ∧
      update_targets m' h2 = Ok h' ∧
      critic_local m' = critic_local ex_models ∧
      values h2 (critic_local ex_models) = values h1 (critic_local ex_models) ∧
      values h' (critic_local ex_models) = values h1 (critic_local ex_models).
Proof.
  assert (models_wf (H := toy) ex_models) as Hwf.
  { unfold models_wf. split; [by_compute|]. by split. }
  split; [exact Hwf|].
  eexists _, _. split; [reflexivity|].
  apply (proj2 (C9_actor_update_frame (H := toy) ex_models ex_batch GAMMA
                  ex_heap Hwf)).
  reflexivity.
Defined.

(** C3.  The learning phase blends the targets with the module constant
    [TAU], not with the rate the agent was built with: an agent of
    either file built with [tau = 1/2] ends [learn] with
    [target = TAU * local + (1 - TAU) * target], which is not the blend
    at its own [tau]. *)
Theorem C3_learn_blends_with_TAU :
  (∃ ag w ag' w',
     ex_original_run (Q2Qc (1 # 4)) = Ok (ag, w) ∧
     Original.learn ex_batch GAMMA ag w = Ok (ag', w') ∧
     Original.tau ag' = Q2Qc (1 # 2) ∧
     let m := Original.models ag' in
     let local := values (heap w') (actor_local m) in
     let target0 := values (heap w) (actor_target m) in
     values (heap w') (actor_target m) = zip_with (blend TAU) local target0 ∧
     values (heap w') (actor_target m)
       ≠ zip_with (blend (Original.tau ag')) local target0) ∧
  (∃ ag w ag' w',
     ex_updated_run (Q2Qc (1 # 4)) 1 1 = Ok (ag, w) ∧
     Updated.learn ex_batch GAMMA ag w = Ok (ag', w') ∧
     Updated.tau ag' = Q2Qc (1 # 2) ∧
     let m := Updated.models ag' in
     let local := values (heap w') (actor_local m) in
     let target0 := values (heap w) (actor_target m) in
     values (heap w') (actor_target m) = zip_with (blend TAU) local target0 ∧
     values (heap w') (actor_target m)
       ≠ zip_with (blend (Updated.tau ag')) local target0).
Proof.
  split.
  - eexists _, _, _, _. split; [reflexivity|]. split; [reflexivity|].
    split; [reflexivity|]. cbv zeta. split; by_compute.
  - eexists _, _, _, _. split; [reflexivity|]. split; [reflexivity|].
    split; [reflexivity|]. cbv zeta. split; by_compute.
Qed.

(** C10.  Construction validates no hyperparameter.  In
    [ddpg_agent.py] it succeeds for every [gamma] and [tau] (batch size
    and capacity are module constants); in [ddpg_agent_updated.py] it
    succeeds for every [gamma], [tau] and batch size and every capacity
    that is not negative, and fails only for a negative capacity, which
    the [deque] refuses.  The values are stored as given. *)
Theorem C10_init_no_validation `{External} (num_agents : Z)
    (state_size action_size : nat) (random_seed : Z)
    (gamma tau lr_actor lr_critic weight_decay mu theta sigma : Qc)
    (learn_rate time_update : Z) (eps_max eps_min eps_decay : Qc)
    (batch_size buffer_size : Z) (w : World) :
  (∃ ag w',
     Original.init num_agents state_size action_size random_seed gamma tau
       lr_actor lr_critic weight_decay mu theta sigma learn_rate time_update
       eps_max eps_min eps_decay w = Ok (ag, w') ∧
     Original.gamma ag = gamma ∧ Original.tau ag = tau) ∧
  ((0 ≤ buffer_size)%Z →
   ∃ ag w',
     Updated.init num_agents state_size action_size random_seed gamma tau
       lr_actor lr_critic weight_decay mu theta sigma learn_rate time_update
       batch_size buffer_size w = Ok (ag, w') ∧
     Updated.gamma ag = gamma ∧ Updated.tau ag = tau ∧
     Updated.batch_size ag = batch_size ∧
     Updated.buffer_size ag = buffer_size ∧
     ReplayBuffer.batch_size (Updated.memory ag) = batch_size ∧
     maxlen (ReplayBuffer.memory (Updated.memory ag)) = buffer_size) ∧
  ((buffer_size < 0)%Z →
   Updated.init num_agents state_size action_size random_seed gamma tau
     lr_actor lr_critic weight_decay mu theta sigma learn_rate time_update
     batch_size buffer_size w = Raise ValueError).
Proof.
  split; [|split].
  - destruct (Original_init_spec num_agents state_size action_size
                random_seed gamma tau lr_actor lr_critic weight_decay mu
                theta sigma learn_rate time_update eps_max eps_min eps_decay
                w) as (ag & w' & Hrun & _ & Hrest).
    cbv zeta in Hrest. destruct Hrest as (_ & _ & _ & _ & _ & _ & Hg & Ht).
    by exists ag, w'.
  - intros Hb.
    destruct (Updated_init_spec num_agents state_size action_size
                random_seed gamma tau lr_actor lr_critic weight_decay mu
                theta sigma learn_rate time_update batch_size buffer_size w)
      as (_ & Hok).
    destruct (Hok Hb) as (ag & w' & Hrun & _ & Hrest).
    cbv zeta in Hrest.
    destruct (Actor_new state_size action_size random_seed (gen w))
      as [wa g1].
    destruct (Actor_new state_size action_size random_seed g1) as [wa' g2].
    destruct (Critic_new state_size action_size random_seed g2) as [wc g3].
    destruct (Critic_new state_size action_size random_seed g3) as [wc' g4].
    destruct Hrest as (_ & _ & _ & _ & Hrest).
    by exists ag, w'.
  - intros Hb.
    by destruct (Updated_init_spec num_agents state_size action_size
                   random_seed gamma tau lr_actor lr_critic weight_decay mu
                   theta sigma learn_rate time_update batch_size buffer_size
                   w) as (Hfail & _); apply Hfail.
Qed.

(** C10, counterexample: an agent is built with a discount
    factor of two, a soft-update rate of zero, a batch size of minus one
    and a capacity of zero. *)
Lemma C10_counterexample :
  ∃ ag w',
    Updated.init (H := toy) 2 3 1 7 (Q2Qc 2) 0 LR_ACTOR LR_CRITIC 0 0 0 1 1 1
      (-1) 0 ex_world = Ok (ag, w') ∧
    Updated.gamma ag = Q2Qc 2 ∧ ¬ (Updated.gamma ag ≤ 1) ∧
    Updated.tau ag = 0 ∧ ¬ (0 < Updated.tau ag) ∧
    Updated.batch_size ag = (-1)%Z ∧ Updated.buffer_size ag = 0%Z.
Proof.
  eexists _, _. split; [reflexivity|].
  split; [reflexivity|]. split; [by_compute|].
  split; [reflexivity|]. split; [by_compute|]. by split.
Qed.

Lemma C10_witness :
  ∃ ag w',
    Updated.init (H := toy) 2 3 1 7 (Q2Qc 2) 0 LR_ACTOR LR_CRITIC 0 0 0 1 1 1
      (-1) 0 ex_world = Ok (ag, w') ∧
    Updated.gamma ag = Q2Qc 2.
Proof.
  destruct (C10_init_no_validation (H := toy) 2 3 1 7 (Q2Qc 2) 0 LR_ACTOR
              LR_CRITIC 0 0 0 1 1 1 1 1 0 (-1) 0 ex_world)
    as (_ & Hok & _).
  destruct (Hok ltac:(lia)) as (ag & w' & Hrun & Hg & _).
  by exists ag, w'.
Defined.

(** ** The soft update and the hard copy, in general *)

Lemma paired_shapes (h : Heap) (target local : Net) :
  Forall2 (paired h) target local →
  Forall2 (λ l t : Tensor, length t = length l)
    (values h local) (values h target).
Proof.
  unfold values.
  induction 1 as [|t l target local (tc & lc & Ht & Hl & Hlen) _ IH].
  { constructor. }
  cbn [omap list_omap]. rewrite Ht, Hl. simpl.
  fold (omap (λ p, data <$> h !! p) target).
  fold (omap (λ p, data <$> h !! p) local).
  by constructor.
Qed.

Lemma zip_with_blend_1 (ls ts : list Tensor) :
  Forall2 (λ l t : Tensor, length t = length l) ls ts →
  zip_with (blend 1) ls ts = ls.
Proof.
  induction 1 as [|l t ls ts Hlen _ IH]; [done|]. simpl.
  by rewrite blend_1, IH.
Qed.

Lemma zip_with_blend_0 (ls ts : list Tensor) :
  Forall2 (λ l t : Tensor, length t = length l) ls ts →
  zip_with (blend 0) ls ts = ts.
Proof.
  induction 1 as [|l t ls ts Hlen _ IH]; [done|]. simpl.
  by rewrite blend_0, IH.
Qed.

(** X1.  [soft_update(local_model, target_model, tau)] on two networks
    with distinct parameters of pairwise equal shapes replaces every
    target tensor by [tau * local + (1 - tau) * target], coordinate by
    coordinate, and writes nothing else; with [tau = 1] the targets
    become equal to the locals, with [tau = 0] they are unchanged. *)
Theorem soft_update_blends (local target : Net) (tau : Qc) (h : Heap) :
  NoDup target → (∀ p, p ∈ target → p ∉ local) →
  Forall2 (paired h) target local →
  ∃ h',
    soft_update local target tau h = Ok h' ∧
    (∀ p, p ∉ target → h' !! p = h !! p) ∧
    length (values h' target) = length target ∧
    (∀ i l t j x y,
       values h local !! i = Some l → values h target !! i = Some t →
       l !! j = Some x → t !! j = Some y →
       ∃ t', values h' target !! i = Some t' ∧
             t' !! j = Some (tau * x + (1 - tau) * y)) ∧
    (tau = 1 → values h' target = values h local) ∧
    (tau = 0 → values h' target = values h target).
Proof.
  intros Hnd Hdisj Hall.
  destruct (soft_update_spec local target tau h Hnd Hdisj Hall)
    as (h' & Hrun & _ & Hother & Hv & Hll & Hlt).
  pose proof (paired_shapes h target local Hall) as Hshapes.
  pose proof (Forall2_length _ _ _ Hall) as Hlen.
  exists h'. split; [done|]. split; [done|]. split.
  { rewrite Hv, length_zip_with. lia. }
  split; [|split].
  - intros i l t j x y Hl Ht Hx Hy. exists (blend tau l t). split.
    + by rewrite Hv, lookup_zip_with, Hl, Ht.
    + by apply blend_lookup.
  - intros ->. rewrite Hv. by apply zip_with_blend_1.
  - intros ->. rewrite Hv. by apply zip_with_blend_0.
Qed.

Lemma soft_update_blends_witness :
  ∃ h',
    soft_update [0%nat] [1%nat] 1 ex_heap = Ok h' ∧
    values h' [1%nat] = values ex_heap [0%nat].
Proof.
  destruct (soft_update_blends [0%nat] [1%nat] 1 ex_heap)
    as (h' & Hrun & _ & _ & _ & H1 & _).
  - by_compute.
  - intros p Hp Hp'. apply list_elem_of_singleton in Hp, Hp'. lia.
  - constructor; [|constructor].
    exists (mk_param [1; 1] None), (mk_param [0; 0] None). by repeat split.
  - exists h'. split; [done|]. by apply H1.
Defined.

(** X2.  In [ddpg_agent.py], construction always succeeds and ends with
    every target parameter equal to the local parameter of the same
    index, for the actor pair and for the critic pair. *)
Theorem original_init_hard_copy `{External} (num_agents : Z)
    (state_size action_size : nat) (random_seed : Z)
    (gamma tau lr_actor lr_critic weight_decay mu theta sigma : Qc)
    (learn_rate time_update : Z) (eps_max eps_min eps_decay : Qc)
    (w : World) :
  ∃ ag w',
    Original.init num_agents state_size action_size random_seed gamma tau
      lr_actor lr_critic weight_decay mu theta sigma learn_rate time_update
      eps_max eps_min eps_decay w = Ok (ag, w') ∧
    let m := Original.models ag in
    length (values (heap w') (actor_local m)) = length (actor_local m) ∧
    length (values (heap w') (critic_local m)) = length (critic_local m) ∧
    length (actor_target m) = length (actor_local m) ∧
    length (critic_target m) = length (critic_local m) ∧
    (∀ i, values (heap w') (actor_target m) !! i
          = values (heap w') (actor_local m) !! i) ∧
    (∀ i, values (heap w') (critic_target m) !! i
          = values (heap w') (critic_local m) !! i).
Proof.
  destruct (Original_init_spec num_agents state_size action_size random_seed
              gamma tau lr_actor lr_critic weight_decay mu theta sigma
              learn_rate time_update eps_max eps_min eps_decay w)
    as (ag & w' & Hrun & _ & Hrest).
  cbv zeta in Hrest.
  destruct Hrest as (Ha & Hc & Hla & Hlc & Hta & Htc & _).
  exists ag, w'. split; [done|]. cbv zeta.
  repeat split; try done.
  - intros i. by rewrite Ha.
  - intros i. by rewrite Hc.
Qed.
